(** * PersonRepository: a list of people kept sorted by ID

    Shallow embedding of [repository/PersonRepository.py] (the class
    [PersonRepository] of the NABManagement assignment) and the proofs of
    its contract: the ordering and uniqueness invariants, the failure
    behaviour of every method, the substring filters and the rendering. *)

From Stdlib Require Import ZArith String Ascii List Lia Permutation.
From stdpp Require Import base tactics option list sorting gmap strings.

Local Open Scope Z_scope.

(** ** Python values *)

(** The objects a [Person]'s [id] attribute can hold.  Python is dynamically
    typed: nothing in the repository's source forces [person.id] to be an
    integer before [find] validates it. *)
Inductive scalar : Type :=
| SInt (z : Z)
| SStr (s : string)
| SNone.

(** Modelled from the spec: [domain.Person] is imported, not defined, by the
    source.  A plain value type with the four fields [id], [name], [phone],
    [address] and structural equality (here: Leibniz equality of records). *)
Record Person : Type := mkPerson {
  id : scalar;
  name : string;
  phone : string;
  address : string
}.

(** What a caller can pass as a method argument. *)
#[warnings="-register-all"]
Inductive value : Type :=
| VScalar (s : scalar)
| VPerson (p : Person)
| VList (l : list value).

Abbreviation VInt z := (VScalar (SInt z)).
Abbreviation VStr s := (VScalar (SStr s)).

Definition scalar_eqb (a b : scalar) : bool :=
  match a, b with
  | SInt x, SInt y => Z.eqb x y
  | SStr x, SStr y => String.eqb x y
  | SNone, SNone => true
  | _, _ => false
  end.

(** Python's [person.id == v], with a scalar on the left: an integer, a
    string or [None] equals only an object of its own type with its value. *)
Definition py_eq (a : scalar) (v : value) : bool :=
  match v with
  | VScalar b => scalar_eqb a b
  | _ => false
  end.

(** Python 3's [a < b] on the keys of [list.sort]: integers by value,
    strings lexicographically; any other pair raises [TypeError] ([None]). *)
Definition py_lt (a b : scalar) : option bool :=
  match a, b with
  | SInt x, SInt y => Some (Z.ltb x y)
  | SStr x, SStr y => Some (String.ltb x y)
  | _, _ => None
  end.

(** Python's [sub in s] on strings: [sub] occurs in [s] as a contiguous,
    case-sensitive block. *)
Fixpoint contains (sub s : string) : bool :=
  match s with
  | EmptyString => String.prefix sub EmptyString
  | String _ s' => String.prefix sub s || contains sub s'
  end.

(** Modelled from the spec: [PersonValidator.valid_id] is imported, not
    defined, by the source.  True iff the value is an integer and strictly
    greater than zero. *)
Definition valid_id (v : value) : bool :=
  match v with
  | VScalar (SInt z) => 0 <? z
  | _ => false
  end.

(** Modelled from the spec: [domain.NABException] is imported, not defined,
    by the source.  The single exception class of the application; every
    failure of the repository is a [NABException] carrying its message. *)
Inductive exn : Type :=
| NABException (msg : string).

Definition newline : string := String (ascii_of_nat 10) EmptyString.

(** ** Python lists *)

(** [l[i]], with Python's negative indices; [None] is [IndexError]. *)
Definition getitem (l : list Person) (i : Z) : option Person :=
  if 0 <=? i then l !! Z.to_nat i
  else if 0 <=? Z.of_nat (length l) + i then l !! Z.to_nat (Z.of_nat (length l) + i)
  else None.

(** [l.pop(i)]: the element at index [i] and the list without it. *)
Definition pop (l : list Person) (i : Z) : option (Person * list Person) :=
  let n := Z.of_nat (length l) in
  let j := if 0 <=? i then i else n + i in
  if (0 <=? j) && (j <? n) then
    p ← l !! Z.to_nat j; Some (p, delete (Z.to_nat j) l)
  else None.

(** One insertion step of a stable sort on the key [x.id].  [x] stood before
    every element of [l] in the original list, so it stays before the first
    element whose key is not smaller than its own.  A failing comparison
    aborts the sort. *)
Fixpoint insert_by_id (x : Person) (l : list Person) : option (list Person) :=
  match l with
  | [] => Some [x]
  | y :: l' =>
      b ← py_lt (id y) (id x);
      if b : bool then l'' ← insert_by_id x l'; Some (y :: l'')
      else Some (x :: y :: l')
  end.

(** [l.sort(key = lambda x: x.id)].  Python's sort is stable and the result
    of a stable sort is unique, so insertion sort computes it. *)
Fixpoint sort_by_id (l : list Person) : option (list Person) :=
  match l with
  | [] => Some []
  | x :: l' => l'' ← sort_by_id l'; insert_by_id x l''
  end.

(** ** The monad of a method call

    A method runs on the private list [self.__list].  It returns, raises a
    [NABException] (the list keeps whatever the method had done to it), or
    dies of another Python error ([TypeError] inside [sort], [IndexError]),
    after which the list is not tracked. *)
Inductive outcome (A : Type) : Type :=
| Return (a : A) (l : list Person)
| Raise (e : exn) (l : list Person)
| Abort.
Arguments Return {A} a l.
Arguments Raise {A} e l.
Arguments Abort {A}.

Definition M (A : Type) : Type := list Person → outcome A.

Definition ret {A} (a : A) : M A := λ l, Return a l.

Definition bind {A B} (m : M A) (k : A → M B) : M B :=
  λ l, match m l with
       | Return a l' => k a l'
       | Raise e l' => Raise e l'
       | Abort => Abort
       end.

Definition raise {A} (e : exn) : M A := λ l, Raise e l.
Definition abort {A} : M A := λ _, Abort.
Definition get : M (list Person) := λ l, Return l l.
Definition put (l : list Person) : M unit := λ _, Return tt l.

Notation "'do' x <- m ; k" := (bind m (λ x, k))
  (at level 10, x name, m at level 100, k at level 200).
Notation "m ;;; k" := (bind m (λ _, k))
  (at level 100, k at level 200, right associativity).

(** [self.__list.sort(key = lambda x: x.id)] *)
Definition sort : M unit :=
  λ l, match sort_by_id l with
       | Some l' => Return tt l'
       | None => Abort
       end.

(** ** The methods of [PersonRepository] *)

Module PersonRepository.

(** [__init__]: the private list of a new repository. *)
Definition __init__ : list Person := [].

Definition __len__ : M Z :=
  sort ;;;
  do l <- get;
  ret (Z.of_nat (length l)).

(** The iterator is modelled by the sequence it yields. *)
Definition __iter__ : M (list Person) :=
  sort ;;;
  get.

(** [all] hands out the private list itself. *)
Definition all : M (list Person) := get.

(** The loop of [find]: the first index [i] with [self.__list[i].id == id],
    counted from [i], or [-1]. *)
Fixpoint find_from (id' : value) (l : list Person) (i : Z) : Z :=
  match l with
  | [] => -1
  | p :: l' => if py_eq (id p) id' then i else find_from id' l' (i + 1)
  end.

Definition find (id' : value) : M Z :=
  if negb (valid_id id') then
    raise (NABException "The given ID is not a positive integer.")
  else
    do l <- get;
    ret (find_from id' l 0).

Definition add (person : value) : M unit :=
  match person with
  | VPerson p =>
      do pos <- find (VScalar (id p));
      if negb (pos =? -1) then
        raise (NABException "There's already a person with that ID.")
      else
        do l <- get;
        put (l ++ [p]) ;;;
        sort
  | _ => raise (NABException "The given person is not valid.")
  end.

Definition find_by_id (id' : value) : M Person :=
  if negb (valid_id id') then
    raise (NABException "The given ID is not a positive integer.")
  else
    do pos <- find id';
    if negb (pos =? -1) then
      do l <- get;
      match getitem l pos with
      | Some p => ret p
      | None => abort
      end
    else
      raise (NABException "No person with the given ID was found.").

(** The loop shared by the three filters: every person of [people] that
    passes [test] is added to the new repository [foundPeople]. *)
Fixpoint add_matching (test : Person → bool) (people : list Person)
    (foundPeople : list Person) : outcome unit :=
  match people with
  | [] => Return tt foundPeople
  | person :: people' =>
      if test person then
        match add (VPerson person) foundPeople with
        | Return _ foundPeople' => add_matching test people' foundPeople'
        | o => o
        end
      else add_matching test people' foundPeople
  end.

(** Runs the loop on a fresh repository and returns that repository (its
    private list); [self.__list] is only read. *)
Definition filter_into_new (test : Person → bool) : M (list Person) :=
  λ l, match add_matching test l __init__ with
       | Return _ foundPeople => Return foundPeople l
       | Raise e _ => Raise e l
       | Abort => Abort
       end.

Definition find_by_name (name' : value) : M (list Person) :=
  match name' with
  | VStr s => filter_into_new (λ person, contains s (name person))
  | _ => raise (NABException "The given name is not a string.")
  end.

Definition find_by_address (address' : value) : M (list Person) :=
  match address' with
  | VStr s => filter_into_new (λ person, contains s (address person))
  | _ => raise (NABException "The given address is not a string.")
  end.

Definition find_by_phone (phone' : value) : M (list Person) :=
  match phone' with
  | VStr s => filter_into_new (λ person, contains s (phone person))
  | _ => raise (NABException "The given phone number is not a string.")
  end.

Definition remove (pos : value) : M Person :=
  do l <- get;
  match pos with
  | VInt i =>
      if (i <? 0) || (Z.of_nat (length l) <=? i) then
        raise (NABException "The given position is not valid.")
      else
        match pop l i with
        | Some (p, l') => put l' ;;; ret p
        | None => abort
        end
  | _ => raise (NABException "The given position is not valid.")
  end.

Definition remove_by_id (id' : value) : M Person :=
  if negb (valid_id id') then
    raise (NABException "The given ID is not a positive integer.")
  else
    do pos <- find id';
    if negb (pos =? -1) then remove (VInt pos)
    else raise (NABException "No person with the given ID was found.").

(** [__str__]; [str] is [Person.__str__], which the source imports. *)
Definition __str__ (str : Person → string) : M string :=
  do l <- get;
  let ret' := fold_left (λ acc person, acc +:+ str person) l "" in
  if negb (ret' =? "")%string then ret ret'
  else ret ("None" +:+ newline).

End PersonRepository.

Import PersonRepository.

(** ** The state reached by a sequence of calls *)

(** A call of a public method with its argument. *)
Inductive call : Type :=
| c_len
| c_iter
| c_all
| c_add (person : value)
| c_find (id' : value)
| c_find_by_id (id' : value)
| c_find_by_name (name' : value)
| c_find_by_address (address' : value)
| c_find_by_phone (phone' : value)
| c_remove (pos : value)
| c_remove_by_id (id' : value)
| c_str (str : Person → string).

(** What a call evaluates to, when it returns. *)
Inductive result : Type :=
| RNone
| RInt (z : Z)
| RStr (s : string)
| RPerson (p : Person)
| RPeople (l : list Person)
| RRepository (l : list Person).

Definition fmap_M {A B} (f : A → B) (m : M A) : M B :=
  do a <- m; ret (f a).

Definition invoke (c : call) : M result :=
  match c with
  | c_len => fmap_M RInt __len__
  | c_iter => fmap_M RPeople __iter__
  | c_all => fmap_M RPeople all
  | c_add person => fmap_M (λ _, RNone) (add person)
  | c_find id' => fmap_M RInt (find id')
  | c_find_by_id id' => fmap_M RPerson (find_by_id id')
  | c_find_by_name name' => fmap_M RRepository (find_by_name name')
  | c_find_by_address address' => fmap_M RRepository (find_by_address address')
  | c_find_by_phone phone' => fmap_M RRepository (find_by_phone phone')
  | c_remove pos => fmap_M RPerson (remove pos)
  | c_remove_by_id id' => fmap_M RPerson (remove_by_id id')
  | c_str str => fmap_M RStr (__str__ str)
  end.

(** The private list after the calls [cs], made one after the other on a
    repository whose list is [l]; a caller that catches a [NABException]
    goes on with the next call.  [None]: a call died of another error. *)
Fixpoint run (cs : list call) (l : list Person) : option (list Person) :=
  match cs with
  | [] => Some l
  | c :: cs' =>
      match invoke c l with
      | Return _ l' | Raise _ l' => run cs' l'
      | Abort => None
      end
  end.

(** ** The invariant *)

(** The ids are integers, strictly ascending along the list, all above
    [lo]. *)
Fixpoint ascending_from (lo : Z) (l : list Person) : bool :=
  match l with
  | [] => true
  | p :: l' =>
      match id p with
      | SInt k => (lo <? k) && ascending_from k l'
      | _ => false
      end
  end.

(** Well-formed list: positive integer ids in strictly ascending order. *)
Definition wf (l : list Person) : Prop := ascending_from 0 l = true.

(** The same, read off positions: a record that stands before another has
    the smaller id. *)
Definition strictly_ascending (l : list Person) : Prop :=
  ∀ (i j : nat) (p q : Person),
    (i < j)%nat → l !! i = Some p → l !! j = Some q →
    ∃ a b, id p = SInt a ∧ id q = SInt b ∧ a < b.

(** The id of the last record, [lo] for the empty list. *)
Fixpoint top (lo : Z) (l : list Person) : Z :=
  match l with
  | [] => lo
  | p :: l' =>
      match id p with
      | SInt k => top k l'
      | _ => top lo l'
      end
  end.

(** [sub] occurs in [s]. *)
Definition substring (sub s : string) : Prop :=
  ∃ pre post, s = pre +:+ sub +:+ post.

(** ** Several repositories

    Every [PersonRepository()] is an object of its own with a private list
    of its own; the filters create one.  The store maps the address of a
    repository to its list. *)

Abbreviation heap := (gmap nat (list Person)).

Inductive stmt : Type :=
| s_new
| s_call (self : nat) (c : call).

(** A new object at an address that is not in use. *)
Definition alloc (l : list Person) (h : heap) : heap :=
  <[fresh (dom h) := l]> h.

(** One statement of a client.  A call runs on the list of [self] and
    writes it back, also when it raised; a repository it returns is a new
    object.  A call on an address that holds no repository does nothing. *)
Definition exec (s : stmt) (h : heap) : option heap :=
  match s with
  | s_new => Some (alloc __init__ h)
  | s_call self c =>
      match h !! self with
      | None => Some h
      | Some l =>
          match invoke c l with
          | Return (RRepository foundPeople) l' =>
              Some (alloc foundPeople (<[self := l']> h))
          | Return _ l' | Raise _ l' => Some (<[self := l']> h)
          | Abort => None
          end
      end
  end.

Fixpoint exec_all (ss : list stmt) (h : heap) : option heap :=
  match ss with
  | [] => Some h
  | s :: ss' => h' ← exec s h; exec_all ss' h'
  end.

(** ** The invariant of a store and of an outcome *)

(** Every repository of the store has a well-formed list. *)
Definition heap_wf (h : heap) : Prop :=
  ∀ a l, h !! a = Some l → wf l.

(** A repository that a call returns has a well-formed list. *)
Definition result_wf (r : result) : Prop :=
  match r with
  | RRepository foundPeople => wf foundPeople
  | _ => True
  end.

(** The call returned or raised a [NABException], the list it leaves is
    well formed, and so is the repository it may have created. *)
Definition outcome_wf (o : outcome result) : Prop :=
  match o with
  | Return r l => wf l ∧ result_wf r
  | Raise _ l => wf l
  | Abort => False
  end.

(** ** The contract of the filters and of the rendering *)

(** The contract of a filter [method] over the attribute [field] on the
    list [l]: a string argument yields a repository that holds each record
    of [l] whose [field] has the argument as a substring, and nothing else,
    and leaves [l] as it is; the empty string selects every record; any
    other argument raises the NABException with the message [msg]. *)
Definition filter_contract (method : value → M (list Person))
    (field : Person → string) (msg : string) (l : list Person) : Prop :=
  (∀ s : string, ∃ found,
      method (VStr s) l = Return found l ∧
      strictly_ascending found ∧
      ∀ p, p ∈ found ↔ p ∈ l ∧ substring s (field p)) ∧
  method (VStr "") l = Return l l ∧
  (∀ v, (∀ s, v ≠ VStr s) → method v l = Raise (NABException msg) l).

(** The three filters, by the attribute they search. *)
Inductive attribute : Type := a_name | a_address | a_phone.

Definition filter_call (f : attribute) : value → call :=
  match f with
  | a_name => c_find_by_name
  | a_address => c_find_by_address
  | a_phone => c_find_by_phone
  end.

(** The strings of a list, one after the other. *)
Definition concatenation (ss : list string) : string :=
  foldr String.append "" ss.

(** ** The repository of the source's tests *)

Definition john : Person := mkPerson (SInt 1) "John" "1" "A".
Definition mary : Person := mkPerson (SInt 2) "Mary" "1" "B".
Definition mike5 : Person := mkPerson (SInt 5) "Mike" "3" "B".
Definition mike7 : Person := mkPerson (SInt 7) "Mike" "4" "C".

(** The calls of [__repo_for_tests]. *)
Definition repo_for_tests_calls : list call :=
  [c_add (VPerson john); c_add (VPerson mary);
   c_add (VPerson mike5); c_add (VPerson mike7)].

Definition __repo_for_tests : option (list Person) :=
  run repo_for_tests_calls __init__.

(** A client that creates a repository and fills it as the tests do. *)
Definition repo_for_tests_stmts : list stmt :=
  s_new :: (s_call 0%nat <$> repo_for_tests_calls).

(** ** Auxiliary notions for the further properties *)

(** The method ended, by a return or by a [NABException], and the list is
    [l]. *)
Definition ends_with {A} (l : list Person) (o : outcome A) : Prop :=
  match o with
  | Return _ l' | Raise _ l' => l' = l
  | Abort => False
  end.

(** The filter method and the attribute it reads. *)
Definition filter_method (f : attribute) : value → M (list Person) :=
  match f with
  | a_name => find_by_name
  | a_address => find_by_address
  | a_phone => find_by_phone
  end.

Definition field_of (f : attribute) : Person → string :=
  match f with
  | a_name => name
  | a_address => address
  | a_phone => phone
  end.

(** Integer ids that never decrease along the list. *)
Definition ascending (l : list Person) : Prop :=
  ∀ (i j : nat) (p q : Person),
    (i < j)%nat → l !! i = Some p → l !! j = Some q →
    ∃ a b, id p = SInt a ∧ id q = SInt b ∧ a ≤ b.

(** Every id is an integer. *)
Definition integer_ids (l : list Person) : Prop :=
  ∀ p, p ∈ l → ∃ k, id p = SInt k.

(** Both ids are integers and the first is not above the second. *)
Definition id_le (p q : Person) : Prop :=
  ∃ a b, id p = SInt a ∧ id q = SInt b ∧ a ≤ b.

(** * Lemmas *)

Ltac unfold_M :=
  unfold fmap_M, bind, ret, raise, abort, get, put; simpl.

Section ascending.

Implicit Types (l : list Person) (p q : Person) (lo k : Z).

Lemma ascending_from_cons lo p l :
  ascending_from lo (p :: l) = true ↔
  ∃ k, id p = SInt k ∧ lo < k ∧ ascending_from k l = true.
Proof.
  simpl. destruct (id p) as [k| |]; split.
  - intros [H1 H2]%andb_true_iff. exists k. split_and!; [done|lia|done].
  - intros (k' & [= <-] & H1 & H2). apply andb_true_iff. split; [lia|done].
  - done.
  - by intros (? & ? & _).
  - done.
  - by intros (? & ? & _).
Qed.

Lemma ascending_from_weaken lo lo' l :
  lo' ≤ lo → ascending_from lo l = true → ascending_from lo' l = true.
Proof.
  intros Hle. destruct l as [|p l]; [done|].
  rewrite !ascending_from_cons. intros (k & ? & ? & ?).
  exists k. split_and!; [done|lia|done].
Qed.

Lemma ascending_from_top lo l :
  ascending_from lo l = true → lo ≤ top lo l.
Proof.
  revert lo. induction l as [|p l IH]; intros lo; [simpl; lia|].
  intros (k & Hk & ? & Hl)%ascending_from_cons. simpl. rewrite Hk.
  apply IH in Hl. lia.
Qed.

Lemma ascending_from_app lo l1 l2 :
  ascending_from lo (l1 ++ l2) = true ↔
  ascending_from lo l1 = true ∧ ascending_from (top lo l1) l2 = true.
Proof.
  revert lo. induction l1 as [|p l1 IH]; intros lo.
  - simpl. split; [done|by intros [_ ?]].
  - rewrite <-app_comm_cons, !ascending_from_cons. split.
    + intros (k & Hk & ? & [? ?]%IH). split; [by exists k|].
      simpl. by rewrite Hk.
    + intros [(k & Hk & ? & ?) H2]. exists k. split_and!; [done..|].
      apply IH. split; [done|]. simpl in H2. by rewrite Hk in H2.
Qed.

Lemma ascending_from_elem lo l p :
  ascending_from lo l = true → p ∈ l → ∃ k, id p = SInt k ∧ lo < k.
Proof.
  revert lo. induction l as [|q l IH]; intros lo Hl Hin.
  - by apply elem_of_nil in Hin.
  - apply ascending_from_cons in Hl as (k & Hk & ? & Hl).
    apply elem_of_cons in Hin as [->|Hin]; [by exists k|].
    destruct (IH _ Hl Hin) as (k' & ? & ?). exists k'. split; [done|lia].
Qed.

Lemma ascending_from_delete lo l (i : nat) :
  ascending_from lo l = true → ascending_from lo (delete i l) = true.
Proof.
  revert lo i. induction l as [|p l IH]; intros lo i Hl; [by destruct i|].
  apply ascending_from_cons in Hl as (k & Hk & ? & Hl).
  destruct i as [|i]; simpl.
  - apply ascending_from_weaken with k; [lia|done].
  - change (ascending_from lo (p :: delete i l) = true).
    apply ascending_from_cons. exists k. split_and!; [done..|]. by apply IH.
Qed.

Lemma ascending_from_strictly lo l :
  ascending_from lo l = true → strictly_ascending l.
Proof.
  revert lo. induction l as [|x l IH]; intros lo Hl i j p q Hij Hi Hj.
  - by rewrite lookup_nil in Hi.
  - apply ascending_from_cons in Hl as (k & Hk & ? & Hl).
    destruct j as [|j]; [lia|]. simpl in Hj.
    destruct i as [|i]; simpl in Hi.
    + injection Hi as <-.
      destruct (ascending_from_elem k l q Hl) as (b & ? & ?).
      { by eapply list_elem_of_lookup_2. }
      by exists k, b.
    + eapply (IH k Hl i j); [lia|done..].
Qed.

End ascending.

Section searching.

Implicit Types (l : list Person) (p q : Person) (v : value) (k i : Z).

Lemma py_eq_int p k : py_eq (id p) (VInt k) = true ↔ id p = SInt k.
Proof.
  simpl. destruct (id p) as [z| |]; simpl; [|done..].
  rewrite Z.eqb_eq. split; congruence.
Qed.

Lemma valid_id_int v : valid_id v = true ↔ ∃ k, v = VInt k ∧ 0 < k.
Proof.
  split.
  - destruct v as [[z| |]| |]; simpl; try done.
    intros ?%Z.ltb_lt. by exists z.
  - intros (k & -> & ?). simpl. by apply Z.ltb_lt.
Qed.

Lemma find_from_range v l i :
  find_from v l i = -1 ∨ i ≤ find_from v l i < i + Z.of_nat (length l).
Proof.
  revert i. induction l as [|p l IH]; intros i; simpl; [by left|].
  destruct (py_eq (id p) v); [right; lia|].
  destruct (IH (i + 1)) as [->|?]; [by left|right; lia].
Qed.

Lemma find_from_absent v l i :
  0 ≤ i →
  find_from v l i = -1 ↔ ∀ q, q ∈ l → py_eq (id q) v = false.
Proof.
  revert i. induction l as [|p l IH]; intros i Hi; simpl.
  - split; [|done]. intros _ q Hq. by apply elem_of_nil in Hq.
  - destruct (py_eq (id p) v) eqn:Hp.
    + split; [lia|]. intros H. specialize (H p). rewrite Hp in H.
      discriminate H. by left.
    + rewrite IH by lia. split.
      * intros H q [->|Hq]%elem_of_cons; [done|by apply H].
      * intros H q Hq. apply H. by right.
Qed.

Lemma find_from_0_absent v l :
  find_from v l 0 = -1 ↔ ∀ q, q ∈ l → py_eq (id q) v = false.
Proof. by apply find_from_absent. Qed.

Lemma find_from_0_absent_elem v l q :
  find_from v l 0 = -1 → q ∈ l → py_eq (id q) v = false.
Proof. intros H. by apply find_from_0_absent. Qed.

Lemma find_from_present v l i :
  0 ≤ i → find_from v l i ≠ -1 →
  ∃ q, l !! Z.to_nat (find_from v l i - i) = Some q ∧ py_eq (id q) v = true.
Proof.
  revert i. induction l as [|p l IH]; intros i Hi; simpl; [done|].
  destruct (py_eq (id p) v) eqn:Hp.
  - intros _. exists p. by rewrite Z.sub_diag.
  - intros Hne. destruct (IH (i + 1)) as (q & Hq & ?); [lia|done|].
    exists q. split; [|done].
    destruct (find_from_range v l (i + 1)) as [?|?]; [done|].
    replace (Z.to_nat (find_from v l (i + 1) - i))
      with (S (Z.to_nat (find_from v l (i + 1) - (i + 1)))) by lia.
    done.
Qed.

(** In a list with ascending ids the record found for an id is the only
    record that has it. *)
Lemma find_from_unique lo l p k :
  ascending_from lo l = true → p ∈ l → id p = SInt k →
  find_from (VInt k) l 0 ≠ -1 ∧
  l !! Z.to_nat (find_from (VInt k) l 0) = Some p.
Proof.
  intros Hl Hin Hk.
  assert (find_from (VInt k) l 0 ≠ -1) as Hne.
  { rewrite find_from_0_absent. intros H. specialize (H p Hin).
    apply py_eq_int in Hk. congruence. }
  split; [done|].
  destruct (find_from_present (VInt k) l 0) as (q & Hq & Hqk%py_eq_int);
    [lia|done|].
  rewrite Z.sub_0_r in Hq. rewrite Hq. f_equal.
  apply list_elem_of_lookup in Hin as [j Hj].
  set (n := Z.to_nat (find_from (VInt k) l 0)) in *.
  pose proof (ascending_from_strictly lo l Hl) as Hs.
  destruct (Nat.lt_trichotomy n j) as [Hlt|[Heq|Hlt]].
  - destruct (Hs n j q p Hlt Hq Hj) as (a & b & ? & ? & ?).
    assert (a = k) by congruence. assert (b = k) by congruence. lia.
  - subst j. congruence.
  - destruct (Hs j n p q Hlt Hj Hq) as (a & b & ? & ? & ?).
    assert (a = k) by congruence. assert (b = k) by congruence. lia.
Qed.

End searching.

Section sorting.

Implicit Types (l : list Person) (p q x : Person) (lo k : Z).

(** Sorting a list that is already in order leaves it as it is. *)
Lemma sort_by_id_ascending lo l :
  ascending_from lo l = true → sort_by_id l = Some l.
Proof.
  revert lo. induction l as [|x l IH]; intros lo Hl; [done|].
  apply ascending_from_cons in Hl as (k & Hk & ? & Hl).
  simpl. rewrite (IH k Hl). simpl.
  destruct l as [|y l]; [done|].
  apply ascending_from_cons in Hl as (m & Hm & ? & _).
  simpl. rewrite Hm, Hk. simpl.
  by replace (m <? k) with false by lia.
Qed.

Lemma insert_by_id_ascending lo l x k :
  ascending_from lo l = true → id x = SInt k → lo < k →
  (∀ q, q ∈ l → id q ≠ SInt k) →
  ∃ l', insert_by_id x l = Some l' ∧ ascending_from lo l' = true ∧
        l' ≡ₚ x :: l.
Proof.
  revert lo. induction l as [|y l IH]; intros lo Hl Hk Hlo Hfresh.
  - exists [x]. split_and!; [done| |done].
    apply ascending_from_cons. by exists k.
  - apply ascending_from_cons in Hl as (m & Hm & ? & Hl).
    assert (m ≠ k) as Hmk.
    { intros ->. apply (Hfresh y); [by left|done]. }
    simpl. rewrite Hm, Hk. simpl.
    destruct (Z.ltb_spec m k) as [Hlt|Hge].
    + destruct (IH m) as (l' & -> & Hl' & Hperm); [done..| |].
      { intros q Hq. apply Hfresh. by right. }
      exists (y :: l'). split_and!; [done| |].
      * apply ascending_from_cons. by exists m.
      * rewrite Hperm. apply perm_swap.
    + exists (x :: y :: l). split_and!; [done| |done].
      apply ascending_from_cons. exists k. split_and!; [done..|].
      apply ascending_from_cons. exists m. split_and!; [done|lia|done].
Qed.

(** [append] then [sort] of a record with a new id. *)
Lemma sort_by_id_snoc lo l p k :
  ascending_from lo l = true → id p = SInt k → lo < k →
  (∀ q, q ∈ l → id q ≠ SInt k) →
  ∃ l', sort_by_id (l ++ [p]) = Some l' ∧ ascending_from lo l' = true ∧
        l' ≡ₚ p :: l.
Proof.
  revert lo. induction l as [|x l IH]; intros lo Hl Hk Hlo Hfresh.
  - exists [p]. split_and!; [done| |done].
    apply ascending_from_cons. by exists k.
  - apply ascending_from_cons in Hl as (m & Hm & ? & Hl).
    destruct (IH lo) as (l1 & Hsort & Hl1 & Hperm); [|done..| |].
    { apply ascending_from_weaken with m; [lia|done]. }
    { intros q Hq. apply Hfresh. by right. }
    destruct (insert_by_id_ascending lo l1 x m) as (l2 & Hins & Hl2 & Hperm2);
      [done..| |].
    { intros q Hq. rewrite Hperm in Hq.
      apply elem_of_cons in Hq as [->|Hq].
      - rewrite Hk. intros [= ->]. apply (Hfresh x); [by left|done].
      - destruct (ascending_from_elem m l q Hl Hq) as (b & -> & ?).
        intros [= ->]. lia. }
    exists l2. split_and!; [|done|].
    + simpl. by rewrite Hsort.
    + rewrite Hperm2, Hperm. apply perm_swap.
Qed.

End sorting.

(** ** The methods on a well-formed list *)

Section methods.

Implicit Types (l : list Person) (p q : Person) (v : value) (k i : Z).

Lemma wf_nil : wf [].
Proof. done. Qed.

Lemma sort_wf l : wf l → sort l = Return tt l.
Proof. intros Hl. unfold sort. by rewrite (sort_by_id_ascending 0 l Hl). Qed.

Lemma find_valid k l :
  0 < k → find (VInt k) l = Return (find_from (VInt k) l 0) l.
Proof.
  intros Hk. unfold find. simpl.
  by replace (0 <? k) with true by lia.
Qed.

Lemma find_invalid v l :
  valid_id v = false →
  find v l = Raise (NABException "The given ID is not a positive integer.") l.
Proof. intros Hv. unfold find. by rewrite Hv. Qed.

Lemma add_not_person v l :
  (∀ p, v ≠ VPerson p) →
  add v l = Raise (NABException "The given person is not valid.") l.
Proof. intros Hv. destruct v as [s|p|vs]; [done| |done]. by destruct (Hv p). Qed.

Lemma add_invalid_id p l :
  valid_id (VScalar (id p)) = false →
  add (VPerson p) l =
    Raise (NABException "The given ID is not a positive integer.") l.
Proof.
  intros Hv. unfold add, bind. by rewrite (find_invalid _ _ Hv).
Qed.

Lemma add_present p q l :
  valid_id (VScalar (id p)) = true → q ∈ l → id q = id p →
  add (VPerson p) l =
    Raise (NABException "There's already a person with that ID.") l.
Proof.
  intros Hv Hq Hid.
  destruct (proj1 (valid_id_int _) Hv) as (k & [= Hk] & Hpos).
  unfold add, bind. rewrite Hk, (find_valid k l Hpos).
  destruct (Z.eqb_spec (find_from (VInt k) l 0) (-1)) as [Habs|_]; [|done].
  pose proof (find_from_0_absent_elem _ _ q Habs Hq).
  assert (py_eq (id q) (VInt k) = true) by (apply py_eq_int; congruence).
  congruence.
Qed.

Lemma add_fresh p k l :
  wf l → id p = SInt k → 0 < k → (∀ q, q ∈ l → id q ≠ SInt k) →
  ∃ l', add (VPerson p) l = Return tt l' ∧ wf l' ∧ l' ≡ₚ p :: l.
Proof.
  intros Hl Hk Hpos Hfresh.
  destruct (sort_by_id_snoc 0 l p k) as (l' & Hsort & Hl' & Hperm); [done..|].
  exists l'. split_and!; [|done..].
  unfold add, bind. rewrite Hk, (find_valid k l Hpos).
  assert (find_from (VInt k) l 0 = -1) as ->.
  { apply find_from_0_absent. intros q Hq.
    destruct (py_eq (id q) (VInt k)) eqn:Heq; [|done].
    apply py_eq_int in Heq. by destruct (Hfresh q Hq). }
  unfold_M. unfold sort. by rewrite Hsort.
Qed.

(** Whatever the argument, [add] on a well-formed list returns or raises,
    and the list stays well formed. *)
Lemma add_wf v l :
  wf l →
  (∃ l', add v l = Return tt l' ∧ wf l') ∨ (∃ e, add v l = Raise e l).
Proof.
  intros Hl. destruct v as [s|p|vs]; [right; by eexists| |right; by eexists].
  destruct (valid_id (VScalar (id p))) eqn:Hv.
  - destruct (proj1 (valid_id_int _) Hv) as (k & [= Hk] & Hpos).
    destruct (Z.eq_dec (find_from (VInt k) l 0) (-1)) as [Habs|Hpres].
    + left. destruct (add_fresh p k l) as (l' & ? & ? & _); [done..| |by eauto].
      intros q Hq Hqk%py_eq_int.
      pose proof (find_from_0_absent_elem _ _ q Habs Hq). congruence.
    + right. destruct (find_from_present (VInt k) l 0) as (q & Hq & Hqk);
        [lia|done|].
      eexists. apply (add_present p q); [done| |].
      * by eapply list_elem_of_lookup_2.
      * apply py_eq_int in Hqk. congruence.
  - right. eexists. by apply add_invalid_id.
Qed.

Lemma pop_in_range l i :
  0 ≤ i < Z.of_nat (length l) →
  ∃ p, l !! Z.to_nat i = Some p ∧ pop l i = Some (p, delete (Z.to_nat i) l).
Proof.
  intros Hi. destruct (lookup_lt_is_Some_2 l (Z.to_nat i)) as [p Hp]; [lia|].
  exists p. split; [done|].
  assert ((0 <=? i) = true) as H0 by lia.
  assert ((i <? Z.of_nat (length l)) = true) as H1 by lia.
  unfold pop. cbv zeta. rewrite !H0, H1. simpl. by rewrite Hp.
Qed.

Lemma remove_in_range l i :
  0 ≤ i < Z.of_nat (length l) →
  ∃ p, l !! Z.to_nat i = Some p ∧
       remove (VInt i) l = Return p (delete (Z.to_nat i) l).
Proof.
  intros Hi. destruct (pop_in_range l i Hi) as (p & Hp & Hpop).
  exists p. split; [done|]. unfold remove. unfold_M.
  replace (i <? 0) with false by lia.
  replace (Z.of_nat (length l) <=? i) with false by lia.
  simpl. by rewrite Hpop.
Qed.

Lemma remove_out_of_range l i :
  i < 0 ∨ Z.of_nat (length l) ≤ i →
  remove (VInt i) l = Raise (NABException "The given position is not valid.") l.
Proof.
  intros Hi. unfold remove. unfold_M.
  destruct (Z.ltb_spec i 0); [done|].
  by replace (Z.of_nat (length l) <=? i) with true by lia.
Qed.

Lemma remove_not_int v l :
  (∀ i, v ≠ VInt i) →
  remove v l = Raise (NABException "The given position is not valid.") l.
Proof.
  intros Hv. destruct v as [[i| |]|p|vs]; try done. by destruct (Hv i).
Qed.

Lemma remove_wf v l :
  wf l →
  (∃ p l', remove v l = Return p l' ∧ wf l') ∨ (∃ e, remove v l = Raise e l).
Proof.
  intros Hl.
  destruct v as [[i| |]|p|vs]; try (right; by eexists).
  destruct (Z_lt_ge_dec i 0); [right; eexists; apply remove_out_of_range; lia|].
  destruct (Z_lt_ge_dec i (Z.of_nat (length l)));
    [|right; eexists; apply remove_out_of_range; lia].
  left. destruct (remove_in_range l i) as (p & _ & ->); [lia|].
  eexists _, _. split; [done|]. by apply ascending_from_delete.
Qed.

End methods.

Section lookups.

Implicit Types (l : list Person) (p q : Person) (v : value) (k i : Z).

Lemma getitem_nonneg l i : 0 ≤ i → getitem l i = l !! Z.to_nat i.
Proof. intros Hi. unfold getitem. by replace (0 <=? i) with true by lia. Qed.

Lemma valid_id_pos k : 0 < k → valid_id (VInt k) = true.
Proof. intros Hk. simpl. lia. Qed.

Lemma find_by_id_invalid v l :
  valid_id v = false →
  find_by_id v l =
    Raise (NABException "The given ID is not a positive integer.") l.
Proof. intros Hv. unfold find_by_id. by rewrite Hv. Qed.

Lemma find_by_id_absent k l :
  0 < k → find_from (VInt k) l 0 = -1 →
  find_by_id (VInt k) l =
    Raise (NABException "No person with the given ID was found.") l.
Proof.
  intros Hk Habs. unfold find_by_id. rewrite (valid_id_pos k Hk).
  cbn [negb]. unfold bind. by rewrite (find_valid k l Hk), Habs.
Qed.

Lemma find_by_id_present k l :
  0 < k → find_from (VInt k) l 0 ≠ -1 →
  ∃ q, l !! Z.to_nat (find_from (VInt k) l 0) = Some q ∧ id q = SInt k ∧
       find_by_id (VInt k) l = Return q l.
Proof.
  intros Hk Hpres.
  destruct (find_from_present (VInt k) l 0) as (q & Hq & Hqk%py_eq_int);
    [lia|done|].
  rewrite Z.sub_0_r in Hq. exists q. split_and!; [done..|].
  destruct (find_from_range (VInt k) l 0) as [?|Hr]; [done|].
  unfold find_by_id. rewrite (valid_id_pos k Hk).
  cbn [negb]. unfold bind. rewrite (find_valid k l Hk).
  destruct (Z.eqb_spec (find_from (VInt k) l 0) (-1)) as [?|_]; [done|].
  unfold_M. rewrite getitem_nonneg by lia. by rewrite Hq.
Qed.

Lemma remove_by_id_invalid v l :
  valid_id v = false →
  remove_by_id v l =
    Raise (NABException "The given ID is not a positive integer.") l.
Proof. intros Hv. unfold remove_by_id. by rewrite Hv. Qed.

Lemma remove_by_id_absent k l :
  0 < k → find_from (VInt k) l 0 = -1 →
  remove_by_id (VInt k) l =
    Raise (NABException "No person with the given ID was found.") l.
Proof.
  intros Hk Habs. unfold remove_by_id. rewrite (valid_id_pos k Hk).
  cbn [negb]. unfold bind. by rewrite (find_valid k l Hk), Habs.
Qed.

Lemma remove_by_id_present k l :
  0 < k → find_from (VInt k) l 0 ≠ -1 →
  ∃ q, l !! Z.to_nat (find_from (VInt k) l 0) = Some q ∧ id q = SInt k ∧
       remove_by_id (VInt k) l =
         Return q (delete (Z.to_nat (find_from (VInt k) l 0)) l).
Proof.
  intros Hk Hpres.
  destruct (find_from_present (VInt k) l 0) as (q & Hq & Hqk%py_eq_int);
    [lia|done|].
  rewrite Z.sub_0_r in Hq. exists q. split_and!; [done..|].
  destruct (find_from_range (VInt k) l 0) as [?|Hr]; [done|].
  destruct (remove_in_range l (find_from (VInt k) l 0)) as (q' & Hq' & Hrem);
    [lia|].
  assert (q' = q) as -> by congruence.
  unfold remove_by_id. rewrite (valid_id_pos k Hk).
  cbn [negb]. unfold bind. rewrite (find_valid k l Hk).
  by destruct (Z.eqb_spec (find_from (VInt k) l 0) (-1)) as [?|_].
Qed.

End lookups.

Section filters.

Implicit Types (l acc : list Person) (p q x : Person) (test : Person → bool).

Lemma prefix_app (sub s : string) :
  String.prefix sub s = true ↔ ∃ post, s = sub +:+ post.
Proof.
  revert s. induction sub as [|a sub IH]; intros s.
  - split; [|by destruct s]. intros _. by exists s.
  - destruct s as [|b s]; simpl.
    + split; [done|]. by intros [post ?].
    + destruct (ascii_dec a b) as [->|Hne].
      * rewrite IH. split; intros [post Hpost]; exists post.
        -- by rewrite Hpost.
        -- by injection Hpost.
      * split; [done|]. intros [post [= ? _]]. by destruct Hne.
Qed.

Lemma contains_substring (sub s : string) :
  contains sub s = true ↔ substring sub s.
Proof.
  unfold substring. induction s as [|c s IH]; cbn [contains].
  - rewrite prefix_app. split.
    + intros [post Hpost]. by exists EmptyString, post.
    + intros ([|c pre] & post & Hs); [|done]. by exists post.
  - rewrite orb_true_iff, prefix_app, IH. split.
    + intros [[post Hpost]|(pre & post & ->)].
      * by exists EmptyString, post.
      * by exists (String c pre), post.
    + intros ([|c' pre] & post & Hs).
      * left. by exists post.
      * right. injection Hs as -> ->. by exists pre, post.
Qed.

Lemma contains_empty (s : string) : contains EmptyString s = true.
Proof. apply contains_substring. by exists EmptyString, s. Qed.

Lemma ascending_from_filter lo test l :
  ascending_from lo l = true → ascending_from lo (List.filter test l) = true.
Proof.
  revert lo. induction l as [|x l IH]; intros lo Hl; [done|].
  apply ascending_from_cons in Hl as (k & Hk & ? & Hl). simpl.
  destruct (test x).
  - apply ascending_from_cons. exists k. split_and!; [done..|]. by apply IH.
  - apply ascending_from_weaken with k; [lia|]. by apply IH.
Qed.

(** Adding the record that comes next in id order appends it. *)
Lemma add_last acc x :
  wf (acc ++ [x]) → add (VPerson x) acc = Return tt (acc ++ [x]).
Proof.
  intros Hwf. pose proof Hwf as [Hacc Hx]%ascending_from_app.
  apply ascending_from_cons in Hx as (k & Hk & Htop & _).
  pose proof (ascending_from_top 0 acc Hacc).
  unfold add, bind. rewrite Hk, (find_valid k acc) by lia.
  assert (find_from (VInt k) acc 0 = -1) as ->.
  { apply find_from_0_absent. intros q [i Hi]%list_elem_of_lookup.
    destruct (py_eq (id q) (VInt k)) eqn:Heq; [|done].
    apply py_eq_int in Heq.
    destruct (ascending_from_strictly 0 _ Hwf i (length acc) q x)
      as (a & b & ? & ? & ?).
    - by eapply lookup_lt_Some.
    - by apply lookup_app_l_Some.
    - by rewrite list_lookup_middle.
    - assert (a = k) by congruence. assert (b = k) by congruence. lia. }
  unfold_M. by rewrite sort_wf.
Qed.

(** On a well-formed list the loop of a filter never fails: it appends the
    matching records, in order, to what was found before. *)
Lemma add_matching_wf test l acc :
  wf (acc ++ l) →
  add_matching test l acc = Return tt (acc ++ List.filter test l).
Proof.
  revert acc. induction l as [|x l IH]; intros acc Hwf;
    cbn [add_matching List.filter].
  - by rewrite app_nil_r.
  - destruct (test x).
    + rewrite add_last.
      * rewrite IH; [by rewrite <-app_assoc|]. by rewrite <-app_assoc.
      * unfold wf in Hwf. rewrite cons_middle, app_assoc in Hwf.
        by apply ascending_from_app in Hwf as [? _].
    + apply IH. rewrite <-(delete_middle acc l x).
      by apply ascending_from_delete.
Qed.

Lemma filter_into_new_wf test l :
  wf l → filter_into_new test l = Return (List.filter test l) l.
Proof.
  intros Hwf. unfold filter_into_new, __init__.
  by rewrite (add_matching_wf test l []).
Qed.

End filters.

(** ** Every call keeps the list well formed *)

Section preservation.

Implicit Types (l : list Person) (c : call) (cs : list call).

Lemma find_by_id_cases v l :
  (∃ q, find_by_id v l = Return q l) ∨ (∃ e, find_by_id v l = Raise e l).
Proof.
  destruct (valid_id v) eqn:Hv.
  - apply valid_id_int in Hv as (k & -> & Hk).
    destruct (Z.eq_dec (find_from (VInt k) l 0) (-1)) as [Habs|Hpres].
    + right. eexists. by apply find_by_id_absent.
    + left. destruct (find_by_id_present k l Hk Hpres) as (q & _ & _ & ->).
      by exists q.
  - right. eexists. by apply find_by_id_invalid.
Qed.

Lemma remove_by_id_cases v l :
  (∃ q (i : nat), remove_by_id v l = Return q (delete i l)) ∨
  (∃ e, remove_by_id v l = Raise e l).
Proof.
  destruct (valid_id v) eqn:Hv.
  - apply valid_id_int in Hv as (k & -> & Hk).
    destruct (Z.eq_dec (find_from (VInt k) l 0) (-1)) as [Habs|Hpres].
    + right. eexists. by apply remove_by_id_absent.
    + left. destruct (remove_by_id_present k l Hk Hpres) as (q & _ & _ & ->).
      by eexists _, _.
  - right. eexists. by apply remove_by_id_invalid.
Qed.

Lemma find_cases v l :
  (∃ i, find v l = Return i l) ∨ (∃ e, find v l = Raise e l).
Proof.
  unfold find. destruct (valid_id v); simpl; [left|right]; by eexists.
Qed.

Lemma filter_cases (field : Person → string) (msg : string) v l :
  wf l →
  outcome_wf
    (fmap_M RRepository
       (match v with
        | VStr s => filter_into_new (λ person, contains s (field person))
        | _ => raise (NABException msg)
        end) l).
Proof.
  intros Hl. unfold fmap_M, bind.
  destruct v as [[z|s|]|p|vs]; try done.
  rewrite filter_into_new_wf by done. simpl.
  split; [done|]. by apply ascending_from_filter.
Qed.

Lemma invoke_wf c l : wf l → outcome_wf (invoke c l).
Proof.
  intros Hl. destruct c as [| | |v|v|v|v|v|v|v|v|str]; unfold invoke.
  - unfold fmap_M, __len__, bind. by rewrite sort_wf.
  - unfold fmap_M, __iter__, bind. by rewrite sort_wf.
  - done.
  - unfold fmap_M, bind.
    destruct (add_wf v l Hl) as [(l' & -> & ?)|(e & ->)]; by simpl.
  - unfold fmap_M, bind.
    destruct (find_cases v l) as [(i & ->)|(e & ->)]; by simpl.
  - unfold fmap_M, bind.
    destruct (find_by_id_cases v l) as [(q & ->)|(e & ->)]; by simpl.
  - by apply filter_cases.
  - by apply filter_cases.
  - by apply filter_cases.
  - unfold fmap_M, bind.
    destruct (remove_wf v l Hl) as [(q & l' & -> & ?)|(e & ->)]; by simpl.
  - unfold fmap_M, bind.
    destruct (remove_by_id_cases v l) as [(q & i & ->)|(e & ->)]; simpl;
      [|done].
    split; [|done]. by apply ascending_from_delete.
  - unfold fmap_M, __str__. unfold_M.
    by destruct (negb _).
Qed.

Lemma run_wf cs l : wf l → ∃ l', run cs l = Some l' ∧ wf l'.
Proof.
  revert l. induction cs as [|c cs IH]; intros l Hl; [by exists l|].
  simpl. pose proof (invoke_wf c l Hl) as Hc.
  destruct (invoke c l) as [r l'|e l'|]; simpl in Hc; [|by apply IH|done].
  apply IH. by destruct Hc.
Qed.

Lemma run_app cs1 cs2 l :
  run (cs1 ++ cs2) l = run cs1 l ≫= run cs2.
Proof.
  revert l. induction cs1 as [|c cs1 IH]; intros l; [done|].
  simpl. by destruct (invoke c l).
Qed.

(** Conversely every well-formed list is the content of a repository:
    adding its records one by one to an empty repository builds it. *)
Lemma wf_run l : wf l → run (c_add ∘ VPerson <$> l) [] = Some l.
Proof.
  induction l as [|x l IH] using rev_ind; intros Hl; [done|].
  rewrite fmap_app, run_app, IH.
  - change (run [c_add (VPerson x)] l = Some (l ++ [x])).
    cbn [run invoke]. unfold fmap_M, bind. by rewrite add_last.
  - by apply ascending_from_app in Hl as [? _].
Qed.

End preservation.

(** ** Several repositories *)

Section store.

Implicit Types (h : heap) (l : list Person) (a b : nat) (c : call).

Lemma alloc_fresh l h : h !! fresh (dom h) = None.
Proof. apply not_elem_of_dom. apply is_fresh. Qed.

Lemma alloc_lookup_new l h : alloc l h !! fresh (dom h) = Some l.
Proof. unfold alloc. by rewrite lookup_insert_eq. Qed.

Lemma alloc_lookup_old l h a :
  is_Some (h !! a) → alloc l h !! a = h !! a.
Proof.
  intros Ha. unfold alloc. rewrite lookup_insert_ne; [done|].
  intros Heq. rewrite <-Heq, (alloc_fresh l h) in Ha. by destruct Ha.
Qed.

Lemma alloc_wf l h : wf l → heap_wf h → heap_wf (alloc l h).
Proof.
  intros Hl Hh a l'. unfold alloc. rewrite lookup_insert.
  case_decide; [by intros [= <-]|]. apply Hh.
Qed.

Lemma insert_wf a l h : wf l → heap_wf h → heap_wf (<[a := l]> h).
Proof.
  intros Hl Hh b l'. rewrite lookup_insert.
  case_decide; [by intros [= <-]|]. apply Hh.
Qed.

(** A call on [a] leaves every other repository of the store alone. *)
Lemma exec_frame a b c h h' :
  exec (s_call a c) h = Some h' → b ≠ a → is_Some (h !! b) →
  h' !! b = h !! b.
Proof.
  intros Hexec Hne Hb. simpl in Hexec.
  destruct (h !! a) as [l|] eqn:Ha; [|congruence].
  assert (∀ l', is_Some (<[a := l']> h !! b)) as Hb'.
  { intros l'. by rewrite lookup_insert_ne. }
  destruct (invoke c l) as [r l'|e l'|]; [| |done].
  - destruct r; injection Hexec as <-;
      rewrite ?alloc_lookup_old by done; by rewrite lookup_insert_ne.
  - injection Hexec as <-. by rewrite lookup_insert_ne.
Qed.

Lemma exec_wf s h : heap_wf h → ∃ h', exec s h = Some h' ∧ heap_wf h'.
Proof.
  intros Hh. destruct s as [|a c]; simpl.
  - eexists. split; [done|]. by apply alloc_wf.
  - destruct (h !! a) as [l|] eqn:Ha; [|by exists h].
    pose proof (invoke_wf c l (Hh a l Ha)) as Hc.
    destruct (invoke c l) as [r l'|e l'|]; simpl in Hc; [| |done].
    + destruct Hc as [Hl' Hr].
      destruct r; (eexists; split; [done|]);
        try apply alloc_wf; try apply insert_wf; done.
    + eexists. split; [done|]. by apply insert_wf.
Qed.

Lemma exec_all_wf ss h : heap_wf h → ∃ h', exec_all ss h = Some h' ∧ heap_wf h'.
Proof.
  revert h. induction ss as [|s ss IH]; intros h Hh; [by exists h|].
  cbn [exec_all]. destruct (exec_wf s h Hh) as (h1 & -> & Hh1). by apply IH.
Qed.

Lemma heap_wf_empty : heap_wf ∅.
Proof. intros a l. by rewrite lookup_empty. Qed.

(** Calls on [a], however many, leave the repository at [b] alone. *)
Lemma exec_all_frame a b (cs : list call) h h' :
  exec_all (s_call a <$> cs) h = Some h' → b ≠ a → is_Some (h !! b) →
  h' !! b = h !! b.
Proof.
  revert h. induction cs as [|c cs IH]; intros h Hexec Hne Hb.
  - by injection Hexec as <-.
  - rewrite fmap_cons in Hexec. cbn [exec_all] in Hexec.
    destruct (exec (s_call a c) h) as [h1|] eqn:Hc; [|done].
    cbn [mbind option_bind] in Hexec. pose proof (exec_frame a b c h h1 Hc Hne Hb) as Hframe.
    rewrite <-Hframe. apply IH; [done..|]. by rewrite Hframe.
Qed.

End store.

Lemma repo_for_tests_list :
  __repo_for_tests = Some [john; mary; mike5; mike7].
Proof. reflexivity. Qed.

(** A repository is what calls of public methods make of an empty one; its
    list is well formed. *)
Lemma run_init_wf (cs : list call) (l : list Person) :
  run cs __init__ = Some l → wf l.
Proof.
  intros Hrun. destruct (run_wf cs __init__ wf_nil) as (l' & Hl' & Hwf).
  congruence.
Qed.

(** * The contract *)

(** C1. Ordering invariant: after every sequence of public calls on a
    repository that started empty (valid or failing [add], [remove],
    [remove_by_id] among them), no call has died, and [all()] and iteration
    both yield the records of the list in strictly ascending order of id. *)
Theorem ordering_invariant (cs : list call) :
  ∃ l, run cs __init__ = Some l ∧
       all l = Return l l ∧ __iter__ l = Return l l ∧
       strictly_ascending l.
Proof.
  destruct (run_wf cs __init__ wf_nil) as (l & Hrun & Hwf).
  exists l. split_and!; [done..| |].
  - unfold __iter__, bind. by rewrite sort_wf.
  - by apply ascending_from_strictly with 0.
Qed.

(** C2. Uniqueness invariant: after every sequence of statements of a
    client (creating repositories, calling any public method on any of
    them, the repositories returned by the filters included), no call has
    died and in every repository at most one record has a given id: two
    positions that hold records with the same id are the same position. *)
Theorem uniqueness_invariant (ss : list stmt) :
  ∃ h, exec_all ss ∅ = Some h ∧
       ∀ (a : nat) (l : list Person) (k : scalar) (i j : nat) (p q : Person),
         h !! a = Some l → l !! i = Some p → l !! j = Some q →
         id p = k → id q = k → i = j.
Proof.
  destruct (exec_all_wf ss ∅ heap_wf_empty) as (h & Hexec & Hh).
  exists h. split; [done|]. intros a l k i j p q Ha Hi Hj Hp Hq.
  pose proof (ascending_from_strictly 0 l (Hh a l Ha)) as Hs.
  destruct (Nat.lt_trichotomy i j) as [Hlt|[Heq|Hlt]]; [|done|].
  - destruct (Hs i j p q Hlt Hi Hj) as (x & y & ? & ? & ?).
    assert (SInt x = SInt y) as [= ?] by congruence. lia.
  - destruct (Hs j i q p Hlt Hj Hi) as (x & y & ? & ? & ?).
    assert (SInt x = SInt y) as [= ?] by congruence. lia.
Qed.

(** C3. Duplicate rejection: on every repository, [add(p)] of a Person whose
    id is the id of a record already contained raises the NABException
    "There's already a person with that ID." and leaves the list, hence its
    size and contents, exactly as it was. *)
Theorem add_duplicate_rejected (cs : list call) (l : list Person)
    (p q : Person) (i : nat) :
  run cs __init__ = Some l → l !! i = Some q → id q = id p →
  add (VPerson p) l =
    Raise (NABException "There's already a person with that ID.") l.
Proof.
  intros Hwf%run_init_wf Hq Hid.
  assert (q ∈ l) as Hin by (by eapply list_elem_of_lookup_2).
  apply add_present with q; [|done..].
  destruct (ascending_from_elem 0 l q Hwf Hin) as (k & Hk & ?).
  rewrite <-Hid, Hk. by apply valid_id_pos.
Qed.

Lemma add_duplicate_rejected_witness :
  run repo_for_tests_calls __init__ = Some [john; mary; mike5; mike7] ∧
  [john; mary; mike5; mike7] !! 0%nat = Some john ∧
  id john = id (mkPerson (SInt 1) "Mary" "1" "B") ∧
  add (VPerson (mkPerson (SInt 1) "Mary" "1" "B")) [john; mary; mike5; mike7] =
    Raise (NABException "There's already a person with that ID.")
      [john; mary; mike5; mike7].
Proof.
  split_and!; [reflexivity..|].
  apply (add_duplicate_rejected repo_for_tests_calls _ _ john 0%nat);
    reflexivity.
Defined.

(** C4. Round trip: on every repository, for every Person [p] whose id is a
    positive integer that no contained record has, [add(p)] returns and
    [find_by_id(p.id)] right after it returns [p] itself. *)
Theorem add_find_by_id_round_trip (cs : list call) (l : list Person)
    (p : Person) (k : Z) :
  run cs __init__ = Some l → id p = SInt k → 0 < k →
  (∀ q, q ∈ l → id q ≠ id p) →
  ∃ l', add (VPerson p) l = Return tt l' ∧
        find_by_id (VScalar (id p)) l' = Return p l'.
Proof.
  intros Hwf%run_init_wf Hk Hpos Hfresh.
  destruct (add_fresh p k l) as (l' & Hadd & Hwf' & Hperm); [done..| |].
  { intros q Hq. rewrite <-Hk. by apply Hfresh. }
  exists l'. split; [done|].
  assert (p ∈ l') as Hin by (rewrite Hperm; by left).
  destruct (find_from_unique 0 l' p k Hwf' Hin Hk) as [Hne Hlook].
  destruct (find_by_id_present k l' Hpos Hne) as (q & Hq & _ & Hfind).
  rewrite Hk, Hfind. congruence.
Qed.

Lemma add_find_by_id_round_trip_witness :
  ∃ l', add (VPerson (mkPerson (SInt 3) "Sophie" "9" "D"))
          [john; mary; mike5; mike7] = Return tt l' ∧
        find_by_id (VInt 3) l' =
          Return (mkPerson (SInt 3) "Sophie" "9" "D") l'.
Proof.
  apply (add_find_by_id_round_trip repo_for_tests_calls
           [john; mary; mike5; mike7] (mkPerson (SInt 3) "Sophie" "9" "D") 3);
    [reflexivity|reflexivity|lia|].
  intros q Hq. set_unfold in Hq.
  destruct Hq as [->|[->|[->|[->|[]]]]]; discriminate.
Defined.

Lemma filter_true (test : Person → bool) (l : list Person) :
  (∀ p, test p = true) → List.filter test l = l.
Proof.
  intros Htest. induction l as [|x l IH]; [done|].
  simpl. by rewrite Htest, IH.
Qed.

Lemma filter_contract_holds (field : Person → string) (msg : string)
    (l : list Person) :
  wf l →
  filter_contract
    (λ v, match v with
          | VStr s => filter_into_new (λ person, contains s (field person))
          | _ => raise (NABException msg)
          end)
    field msg l.
Proof.
  intros Hwf. split_and!.
  - intros s. eexists. split_and!.
    + by apply filter_into_new_wf.
    + apply ascending_from_strictly with 0. by apply ascending_from_filter.
    + intros p. rewrite !list_elem_of_In, filter_In, contains_substring.
      done.
  - rewrite filter_into_new_wf by done. f_equal.
    apply filter_true. intros p. apply contains_empty.
  - intros v Hv. destruct v as [[z|s|]|p|vs]; try done. by destruct (Hv s).
Qed.

(** C5. Substring search: on every repository, [find_by_name(s)] with a
    string [s] returns a new repository that contains exactly the records
    whose name has [s] as a (case-sensitive) substring, so every record for
    the empty string, and a non-string argument raises the NABException
    "The given name is not a string."; [find_by_address] and
    [find_by_phone] do the same over the address and the phone. *)
Theorem find_by_substring (cs : list call) (l : list Person) :
  run cs __init__ = Some l →
  filter_contract find_by_name name "The given name is not a string." l ∧
  filter_contract find_by_address address
    "The given address is not a string." l ∧
  filter_contract find_by_phone phone
    "The given phone number is not a string." l.
Proof.
  intros Hwf%run_init_wf. split_and!.
  - by apply (filter_contract_holds name).
  - by apply (filter_contract_holds address).
  - by apply (filter_contract_holds phone).
Qed.

Lemma find_by_substring_witness :
  filter_contract find_by_name name "The given name is not a string."
    [john; mary; mike5; mike7] ∧
  filter_contract find_by_address address
    "The given address is not a string." [john; mary; mike5; mike7] ∧
  filter_contract find_by_phone phone
    "The given phone number is not a string." [john; mary; mike5; mike7].
Proof. apply (find_by_substring repo_for_tests_calls). reflexivity. Defined.

(** The searches of the source's tests. *)
Example find_by_tests :
  find_by_name (VStr "Mike") [john; mary; mike5; mike7] =
    Return [mike5; mike7] [john; mary; mike5; mike7] ∧
  find_by_phone (VStr "1") [john; mary; mike5; mike7] =
    Return [john; mary] [john; mary; mike5; mike7] ∧
  find_by_address (VStr "B") [john; mary; mike5; mike7] =
    Return [mary; mike5] [john; mary; mike5; mike7] ∧
  find_by_name (VStr "Sophie") [john; mary; mike5; mike7] =
    Return [] [john; mary; mike5; mike7] ∧
  find_by_name (VInt 3) [john; mary; mike5; mike7] =
    Raise (NABException "The given name is not a string.")
      [john; mary; mike5; mike7].
Proof. by split_and!. Qed.

(** C6. Positional removal: on every repository, whose list is the
    ascending-by-id sequence that [all()] shows, [remove(i)] with an integer
    [0 <= i < size] returns the record at position [i] and removes it, the
    records before it keeping their positions and the records after it
    moving down by one; with any other argument (not an integer, or out of
    range) it raises the NABException "The given position is not valid."
    and leaves the list as it is.  On a repository with the ids 1, 2, 5, 7,
    [remove(2)] returns the record with id 5, the size becomes 3 and
    [find(5)] then returns -1. *)
Theorem remove_positional (cs : list call) (l : list Person) :
  run cs __init__ = Some l →
  (all l = Return l l ∧ strictly_ascending l) ∧
  (∀ i : Z, 0 ≤ i < Z.of_nat (length l) →
     ∃ p, l !! Z.to_nat i = Some p ∧
          remove (VInt i) l = Return p (delete (Z.to_nat i) l) ∧
          (∀ j : nat, (j < Z.to_nat i)%nat →
             delete (Z.to_nat i) l !! j = l !! j) ∧
          (∀ j : nat, (Z.to_nat i ≤ j)%nat →
             delete (Z.to_nat i) l !! j = l !! S j)) ∧
  (∀ v, (∀ i, v = VInt i → i < 0 ∨ Z.of_nat (length l) ≤ i) →
     remove v l =
       Raise (NABException "The given position is not valid.") l) ∧
  (id <$> l = [SInt 1; SInt 2; SInt 5; SInt 7] →
     ∃ p l', remove (VInt 2) l = Return p l' ∧ id p = SInt 5 ∧
             __len__ l' = Return 3 l' ∧ find (VInt 5) l' = Return (-1) l').
Proof.
  intros Hwf%run_init_wf. split_and!.
  - done.
  - by apply ascending_from_strictly with 0.
  - intros i Hi. destruct (remove_in_range l i Hi) as (p & Hp & Hrem).
    exists p. split_and!; [done..| |].
    + intros j Hj. by apply list_lookup_delete_lt.
    + intros j Hj. by apply list_lookup_delete_ge.
  - intros v Hv. destruct v as [[i| |]|p|vs]; try done.
    apply remove_out_of_range. by apply Hv.
  - intros Hids.
    destruct l as [|[i1 ? ? ?] [|[i2 ? ? ?] [|[i3 ? ? ?] [|[i4 ? ? ?] [|]]]]];
      try discriminate.
    injection Hids as -> -> -> ->. by eexists _, _.
Qed.

Lemma remove_positional_witness :
  remove (VInt 2) [john; mary; mike5; mike7] = Return mike5 [john; mary; mike7] ∧
  remove (VInt 4) [john; mary; mike5; mike7] =
    Raise (NABException "The given position is not valid.")
      [john; mary; mike5; mike7].
Proof.
  destruct (remove_positional repo_for_tests_calls [john; mary; mike5; mike7])
    as (_ & Hin & Hout & _); [reflexivity|].
  split.
  - destruct (Hin 2) as (p & Hp & Hrem & _); [simpl; lia|].
    injection Hp as <-. exact Hrem.
  - apply Hout. intros i [= <-]. right. simpl. lia.
Defined.

(** C7. Two layers of "not found": on every list and for every positive
    integer id that no record has, [find] returns -1 without raising,
    while [find_by_id] and [remove_by_id] raise the NABException "No person
    with the given ID was found."; for an id that is not a positive integer
    they raise the NABException "The given ID is not a positive integer.",
    which is a different exception. *)
Theorem not_found_contract (l : list Person) (k : Z) :
  0 < k → (∀ q, q ∈ l → id q ≠ SInt k) →
  find (VInt k) l = Return (-1) l ∧
  find_by_id (VInt k) l =
    Raise (NABException "No person with the given ID was found.") l ∧
  remove_by_id (VInt k) l =
    Raise (NABException "No person with the given ID was found.") l ∧
  (∀ v, valid_id v = false →
     find_by_id v l =
       Raise (NABException "The given ID is not a positive integer.") l ∧
     remove_by_id v l =
       Raise (NABException "The given ID is not a positive integer.") l) ∧
  NABException "No person with the given ID was found." ≠
    NABException "The given ID is not a positive integer.".
Proof.
  intros Hk Hfresh.
  assert (find_from (VInt k) l 0 = -1) as Habs.
  { apply find_from_0_absent. intros q Hq.
    destruct (py_eq (id q) (VInt k)) eqn:Heq; [|done].
    apply py_eq_int in Heq. by destruct (Hfresh q Hq). }
  split_and!.
  - by rewrite find_valid, Habs.
  - by apply find_by_id_absent.
  - by apply remove_by_id_absent.
  - intros v Hv. split.
    + by apply find_by_id_invalid.
    + by apply remove_by_id_invalid.
  - discriminate.
Qed.

Lemma not_found_contract_witness :
  find (VInt 3) [john; mary; mike5; mike7] =
    Return (-1) [john; mary; mike5; mike7] ∧
  find_by_id (VInt 3) [john; mary; mike5; mike7] =
    Raise (NABException "No person with the given ID was found.")
      [john; mary; mike5; mike7] ∧
  remove_by_id (VInt 3) [john; mary; mike5; mike7] =
    Raise (NABException "No person with the given ID was found.")
      [john; mary; mike5; mike7].
Proof.
  destruct (not_found_contract [john; mary; mike5; mike7] 3)
    as (H1 & H2 & H3 & _); [lia| |by split_and!].
  intros q Hq. set_unfold in Hq.
  destruct Hq as [->|[->|[->|[->|[]]]]]; discriminate.
Defined.

Lemma invoke_filter_call (f : attribute) (s : string) (l : list Person) :
  wf l →
  ∃ found, invoke (filter_call f (VStr s)) l = Return (RRepository found) l ∧
           wf found.
Proof.
  intros Hwf.
  destruct f; simpl; unfold fmap_M, bind;
    unfold find_by_name, find_by_address, find_by_phone;
    rewrite filter_into_new_wf by done;
    (eexists; split; [done|by apply ascending_from_filter]).
Qed.

(** C8. Snapshots: in every store a client can reach, a filter called with
    a string on the repository at [a] returns a repository at an address
    [b] that was not in use, and changes nothing else: the list at [a] is as
    before.  Whatever is called on [a] afterwards ([add], [remove], ...),
    no call dies and the list at [b] stays what the filter returned;
    whatever is called on [b], the list at [a] stays what it was. *)
Theorem filter_snapshot_independent (ss : list stmt) (h : heap) (a : nat)
    (l : list Person) (f : attribute) (s : string) :
  exec_all ss ∅ = Some h → h !! a = Some l →
  ∃ (b : nat) (found : list Person),
    h !! b = None ∧
    exec (s_call a (filter_call f (VStr s))) h = Some (<[b := found]> h) ∧
    (∀ cs, ∃ h', exec_all (s_call a <$> cs) (<[b := found]> h) = Some h' ∧
                 h' !! b = Some found) ∧
    (∀ cs, ∃ h', exec_all (s_call b <$> cs) (<[b := found]> h) = Some h' ∧
                 h' !! a = Some l).
Proof.
  intros Hexec Ha.
  destruct (exec_all_wf ss ∅ heap_wf_empty) as (h0 & Hexec0 & Hh).
  assert (h0 = h) as -> by congruence.
  destruct (invoke_filter_call f s l (Hh a l Ha)) as (found & Hinv & Hfound).
  set (b := fresh (dom h)).
  assert (h !! b = None) as Hb by apply (alloc_fresh l).
  assert (b ≠ a) as Hne by (intros ->; congruence).
  assert (heap_wf (<[b := found]> h)) as Hh' by (by apply insert_wf).
  exists b, found. split_and!.
  - done.
  - cbn [exec]. rewrite Ha, Hinv. unfold alloc. by rewrite (insert_id h a l).
  - intros cs.
    destruct (exec_all_wf (s_call a <$> cs) _ Hh') as (h' & Hcs & _).
    exists h'. split; [done|].
    rewrite (exec_all_frame a b cs _ h' Hcs); [|done|].
    + by rewrite lookup_insert_eq.
    + by rewrite lookup_insert_eq.
  - intros cs.
    destruct (exec_all_wf (s_call b <$> cs) _ Hh') as (h' & Hcs & _).
    exists h'. split; [done|].
    rewrite (exec_all_frame b a cs _ h' Hcs); [|done|].
    + by rewrite lookup_insert_ne.
    + by rewrite lookup_insert_ne.
Qed.

Lemma filter_snapshot_independent_witness :
  ∃ (b : nat) (found : list Person),
    ({[0%nat := [john; mary; mike5; mike7]]} : heap) !! b = None ∧
    exec (s_call 0%nat (c_find_by_name (VStr "Mike")))
      {[0%nat := [john; mary; mike5; mike7]]} =
      Some (<[b := found]> {[0%nat := [john; mary; mike5; mike7]]}) ∧
    (∀ cs, ∃ h', exec_all (s_call 0%nat <$> cs)
                   (<[b := found]> {[0%nat := [john; mary; mike5; mike7]]}) =
                 Some h' ∧ h' !! b = Some found) ∧
    (∀ cs, ∃ h', exec_all (s_call b <$> cs)
                   (<[b := found]> {[0%nat := [john; mary; mike5; mike7]]}) =
                 Some h' ∧ h' !! 0%nat = Some [john; mary; mike5; mike7]).
Proof.
  apply (filter_snapshot_independent repo_for_tests_stmts
           {[0%nat := [john; mary; mike5; mike7]]} 0%nat
           [john; mary; mike5; mike7] a_name "Mike").
  - vm_compute. reflexivity.
  - reflexivity.
Defined.

(** C9. Positive ids: on every list, [add(p)] of a Person whose id is not a
    positive integer raises the NABException of [find]'s validation, "The
    given ID is not a positive integer.", and leaves the list as it is;
    hence, whatever a client does, every record of every repository has a
    positive integer id. *)
Theorem add_requires_positive_id (l : list Person) (p : Person)
    (ss : list stmt) :
  valid_id (VScalar (id p)) = false →
  add (VPerson p) l =
    Raise (NABException "The given ID is not a positive integer.") l ∧
  ∃ h, exec_all ss ∅ = Some h ∧
       ∀ (a : nat) (l' : list Person) (q : Person),
         h !! a = Some l' → q ∈ l' →
         ∃ k, id q = SInt k ∧ 0 < k ∧ valid_id (VScalar (id q)) = true.
Proof.
  intros Hv. split; [by apply add_invalid_id|].
  destruct (exec_all_wf ss ∅ heap_wf_empty) as (h & Hexec & Hh).
  exists h. split; [done|]. intros a l' q Ha Hq.
  destruct (ascending_from_elem 0 l' q (Hh a l' Ha) Hq) as (k & Hk & Hpos).
  exists k. split_and!; [done..|]. rewrite Hk. by apply valid_id_pos.
Qed.

Lemma add_requires_positive_id_witness :
  valid_id (VScalar (id (mkPerson (SInt 0) "Zoe" "0" "Z"))) = false ∧
  add (VPerson (mkPerson (SInt 0) "Zoe" "0" "Z")) [john; mary; mike5; mike7] =
    Raise (NABException "The given ID is not a positive integer.")
      [john; mary; mike5; mike7] ∧
  add (VPerson (mkPerson SNone "Zoe" "0" "Z")) [] =
    Raise (NABException "The given ID is not a positive integer.") [].
Proof.
  split_and!; [reflexivity| |].
  - apply (add_requires_positive_id [john; mary; mike5; mike7]
             (mkPerson (SInt 0) "Zoe" "0" "Z") repo_for_tests_stmts).
    reflexivity.
  - apply (add_requires_positive_id [] (mkPerson SNone "Zoe" "0" "Z") []).
    reflexivity.
Defined.

Section rendering.

Variable str : Person → string.

Local Arguments String.append !_ _ / : simpl nomatch.

Lemma append_assoc (s1 s2 s3 : string) :
  (s1 +:+ s2) +:+ s3 = s1 +:+ (s2 +:+ s3).
Proof. induction s1 as [|c s1 IH]; [done|]. simpl. by rewrite IH. Qed.

Lemma append_empty_r (s : string) : s +:+ "" = s.
Proof. induction s as [|c s IH]; [done|]. simpl. by rewrite IH. Qed.

Lemma append_empty (s1 s2 : string) : s1 +:+ s2 = "" → s1 = "".
Proof. by destruct s1. Qed.

Lemma fold_left_append (l : list Person) (acc : string) :
  fold_left (λ acc person, acc +:+ str person) l acc =
  acc +:+ concatenation (str <$> l).
Proof.
  revert acc. induction l as [|p l IH]; intros acc; simpl.
  - by rewrite append_empty_r.
  - by rewrite IH, append_assoc.
Qed.

(** What [__str__] returns, whatever [Person.__str__] is: the marker exactly
    when the concatenation is empty. *)
Lemma __str___concatenation (l : list Person) :
  __str__ str l =
  Return (if String.eqb (concatenation (str <$> l)) ""
          then "None" +:+ newline
          else concatenation (str <$> l)) l.
Proof.
  unfold __str__. unfold_M. rewrite fold_left_append. simpl.
  by destruct (String.eqb _ _).
Qed.


End rendering.



(** * Further properties of the methods *)

Section positions.

Implicit Types (l : list Person) (p q : Person) (v : value) (k : Z) (i j : nat).

(** In a list with ascending ids a position is known by the id it holds. *)
Lemma ascending_lookup_inj lo l i j p q :
  ascending_from lo l = true → l !! i = Some p → l !! j = Some q →
  id p = id q → i = j.
Proof.
  intros Hl Hi Hj Hid.
  pose proof (ascending_from_strictly lo l Hl) as Hs.
  destruct (Nat.lt_trichotomy i j) as [Hlt|[Heq|Hlt]]; [|done|].
  - destruct (Hs i j p q Hlt Hi Hj) as (x & y & ? & ? & ?).
    assert (SInt x = SInt y) as [= ?] by congruence. lia.
  - destruct (Hs j i q p Hlt Hj Hi) as (x & y & ? & ? & ?).
    assert (SInt x = SInt y) as [= ?] by congruence. lia.
Qed.

(** Two lists with ascending ids that hold the same records are equal. *)
Lemma ascending_perm_eq lo1 lo2 l1 l2 :
  ascending_from lo1 l1 = true → ascending_from lo2 l2 = true →
  l1 ≡ₚ l2 → l1 = l2.
Proof.
  revert lo1 lo2 l2. induction l1 as [|x l1 IH]; intros lo1 lo2 l2 H1 H2 Hperm.
  - by apply Permutation_nil in Hperm.
  - destruct l2 as [|y l2].
    { symmetry in Hperm. by apply Permutation_nil in Hperm. }
    apply ascending_from_cons in H1 as (a & Ha & _ & H1).
    apply ascending_from_cons in H2 as (b & Hb & _ & H2).
    assert (x = y) as ->.
    { assert (x ∈ y :: l2) as Hx by (rewrite <-Hperm; by left).
      assert (y ∈ x :: l1) as Hy by (rewrite Hperm; by left).
      apply elem_of_cons in Hx as [?|Hx]; [done|].
      apply elem_of_cons in Hy as [?|Hy]; [done|].
      destruct (ascending_from_elem b l2 x H2 Hx) as (a' & ? & ?).
      destruct (ascending_from_elem a l1 y H1 Hy) as (b' & ? & ?).
      assert (a' = a) by congruence. assert (b' = b) by congruence. lia. }
    f_equal. apply (IH a b); [done..|].
    by apply Permutation_cons_inv in Hperm.
Qed.

Lemma find_from_position lo l i p k :
  ascending_from lo l = true → l !! i = Some p → id p = SInt k →
  find_from (VInt k) l 0 = Z.of_nat i.
Proof.
  intros Hl Hi Hk.
  assert (p ∈ l) as Hin by (by eapply list_elem_of_lookup_2).
  destruct (find_from_unique lo l p k Hl Hin Hk) as [Hne Hlook].
  destruct (find_from_range (VInt k) l 0) as [?|Hr]; [done|].
  pose proof (ascending_lookup_inj lo l _ i p p Hl Hlook Hi eq_refl). lia.
Qed.

(** The loop of [find] stops at the first record with the id. *)
Lemma find_from_first v l (n : Z) j q :
  (Z.of_nat j < find_from v l n - n ∨ find_from v l n = -1) → 0 ≤ n →
  l !! j = Some q → py_eq (id q) v = false.
Proof.
  revert n j. induction l as [|x l IH]; intros n j Hj Hn Hq; [done|].
  simpl in Hj. destruct (py_eq (id x) v) eqn:Hx; [lia|].
  destruct j as [|j]; [by injection Hq as <-|].
  apply (IH (n + 1) j); [lia|lia|done].
Qed.

Lemma add_return_inv v l l' :
  add v l = Return tt l' →
  ∃ p k, v = VPerson p ∧ id p = SInt k ∧ 0 < k ∧
         find_from (VInt k) l 0 = -1.
Proof.
  destruct v as [s|p|vs]; [done| |done].
  destruct (valid_id (VScalar (id p))) eqn:Hv.
  - destruct (proj1 (valid_id_int _) Hv) as (k & [= Hk] & Hpos).
    unfold add, bind. rewrite Hk, (find_valid k l Hpos).
    destruct (Z.eqb_spec (find_from (VInt k) l 0) (-1)) as [Habs|_]; [|done].
    intros _. by exists p, k.
  - by rewrite add_invalid_id.
Qed.

Lemma find_from_absent_iff k l :
  find_from (VInt k) l 0 = -1 ↔ ∀ q, q ∈ l → id q ≠ SInt k.
Proof.
  rewrite find_from_0_absent. split; intros H q Hq.
  - intros Hk%py_eq_int. specialize (H q Hq). congruence.
  - destruct (py_eq (id q) (VInt k)) eqn:Heq; [|done].
    apply py_eq_int in Heq. by destruct (H q Hq).
Qed.

End positions.

(** X1. [len] of a repository is the number of its records, and the sort
    inside [__len__] leaves the list of a repository as it is. *)
Theorem len_counts_records (cs : list call) (l : list Person) :
  run cs __init__ = Some l →
  __len__ l = Return (Z.of_nat (length l)) l.
Proof.
  intros Hwf%run_init_wf. unfold __len__, bind. by rewrite sort_wf.
Qed.

Lemma len_counts_records_witness :
  __len__ [john; mary; mike5; mike7] = Return 4 [john; mary; mike5; mike7].
Proof.
  apply (len_counts_records repo_for_tests_calls [john; mary; mike5; mike7]).
  reflexivity.
Defined.

(** X2. An [add] that returns has put the record in and kept every other
    one: the new list holds the new record and the old records and nothing
    else, [len] has grown by one, and [find_by_id] still returns each old
    record for its id. *)
Theorem add_keeps_records (cs : list call) (l l' : list Person) (v : value) :
  run cs __init__ = Some l → add v l = Return tt l' →
  ∃ p, v = VPerson p ∧ l' ≡ₚ p :: l ∧
       __len__ l' = Return (Z.of_nat (length l) + 1) l' ∧
       ∀ q, q ∈ l → find_by_id (VScalar (id q)) l' = Return q l'.
Proof.
  intros Hwf%run_init_wf Hadd.
  destruct (add_return_inv v l l' Hadd) as (p & k & -> & Hk & Hpos & Habs).
  destruct (add_fresh p k l) as (l'' & Hadd' & Hwf' & Hperm); [done..| |].
  { by apply find_from_absent_iff. }
  assert (l'' = l') as -> by congruence.
  exists p. split_and!; [done..| |].
  - unfold __len__, bind. rewrite sort_wf by done. unfold_M.
    pose proof (Permutation_length Hperm) as Hlen. simpl in Hlen.
    rewrite Hlen. f_equal. lia.
  - intros q Hq.
    assert (q ∈ l') as Hq' by (rewrite Hperm; by right).
    destruct (ascending_from_elem 0 l' q Hwf' Hq') as (b & Hb & Hbpos).
    destruct (find_from_unique 0 l' q b Hwf' Hq' Hb) as [Hne Hlook].
    destruct (find_by_id_present b l' Hbpos Hne) as (q' & Hq'' & _ & Hfind).
    rewrite Hb, Hfind. congruence.
Qed.

Lemma add_keeps_records_witness :
  ∃ p, VPerson (mkPerson (SInt 3) "Sophie" "9" "D") = VPerson p ∧
       [john; mary; mkPerson (SInt 3) "Sophie" "9" "D"; mike5; mike7] ≡ₚ
         p :: [john; mary; mike5; mike7] ∧
       __len__ [john; mary; mkPerson (SInt 3) "Sophie" "9" "D"; mike5; mike7] =
         Return (Z.of_nat (length [john; mary; mike5; mike7]) + 1)
           [john; mary; mkPerson (SInt 3) "Sophie" "9" "D"; mike5; mike7] ∧
       ∀ q, q ∈ [john; mary; mike5; mike7] →
            find_by_id (VScalar (id q))
              [john; mary; mkPerson (SInt 3) "Sophie" "9" "D"; mike5; mike7] =
            Return q
              [john; mary; mkPerson (SInt 3) "Sophie" "9" "D"; mike5; mike7].
Proof.
  apply (add_keeps_records repo_for_tests_calls); reflexivity.
Defined.

(** X3. [find] with a positive integer id on any list, well formed or not,
    returns the position of the first record with that id, and -1 exactly
    when no record has it; the list is not changed. *)
Theorem find_first_match (l : list Person) (k : Z) :
  0 < k →
  ∃ i : Z, find (VInt k) l = Return i l ∧
    ((i = -1 ∧ ∀ q, q ∈ l → id q ≠ SInt k) ∨
     (0 ≤ i < Z.of_nat (length l) ∧
      ∃ p, l !! Z.to_nat i = Some p ∧ id p = SInt k ∧
           ∀ (j : nat) q, (j < Z.to_nat i)%nat → l !! j = Some q →
                          id q ≠ SInt k)).
Proof.
  intros Hk. exists (find_from (VInt k) l 0). split; [by apply find_valid|].
  destruct (Z.eq_dec (find_from (VInt k) l 0) (-1)) as [Habs|Hpres].
  - left. split; [done|]. by apply find_from_absent_iff.
  - right. destruct (find_from_range (VInt k) l 0) as [?|Hr]; [done|].
    split; [lia|].
    destruct (find_from_present (VInt k) l 0) as (p & Hp & Hpk%py_eq_int);
      [lia|done|].
    rewrite Z.sub_0_r in Hp. exists p. split_and!; [done..|].
    intros j q Hj Hq Hqk%py_eq_int.
    rewrite (find_from_first (VInt k) l 0 j q) in Hqk; [done| |lia|done].
    left. lia.
Qed.

Lemma find_first_match_witness :
  ∃ i : Z, find (VInt 5) [john; mary; mike5; mike7] =
             Return i [john; mary; mike5; mike7] ∧
    ((i = -1 ∧ ∀ q, q ∈ [john; mary; mike5; mike7] → id q ≠ SInt 5) ∨
     (0 ≤ i < Z.of_nat (length [john; mary; mike5; mike7]) ∧
      ∃ p, [john; mary; mike5; mike7] !! Z.to_nat i = Some p ∧
           id p = SInt 5 ∧
           ∀ (j : nat) q, (j < Z.to_nat i)%nat →
                          [john; mary; mike5; mike7] !! j = Some q →
                          id q ≠ SInt 5)).
Proof. apply (find_first_match [john; mary; mike5; mike7] 5). lia. Defined.

(** X4. In a repository [find] inverts positions: for the record at
    position [i], [find] of its id returns [i]. *)
Theorem find_inverts_position (cs : list call) (l : list Person) (i : nat)
    (p : Person) :
  run cs __init__ = Some l → l !! i = Some p →
  find (VScalar (id p)) l = Return (Z.of_nat i) l.
Proof.
  intros Hwf%run_init_wf Hi.
  assert (p ∈ l) as Hin by (by eapply list_elem_of_lookup_2).
  destruct (ascending_from_elem 0 l p Hwf Hin) as (k & Hk & Hpos).
  rewrite Hk, find_valid by done.
  by rewrite (find_from_position 0 l i p k).
Qed.

Lemma find_inverts_position_witness :
  find (VScalar (id mike7)) [john; mary; mike5; mike7] =
    Return 3 [john; mary; mike5; mike7].
Proof.
  apply (find_inverts_position repo_for_tests_calls _ 3%nat mike7);
    reflexivity.
Defined.

(** X5. In a repository [find_by_id] of the id of a contained record returns
    that record and leaves the list as it is. *)
Theorem find_by_id_returns_record (cs : list call) (l : list Person)
    (i : nat) (p : Person) :
  run cs __init__ = Some l → l !! i = Some p →
  find_by_id (VScalar (id p)) l = Return p l.
Proof.
  intros Hwf%run_init_wf Hi.
  assert (p ∈ l) as Hin by (by eapply list_elem_of_lookup_2).
  destruct (ascending_from_elem 0 l p Hwf Hin) as (k & Hk & Hpos).
  destruct (find_from_unique 0 l p k Hwf Hin Hk) as [Hne Hlook].
  destruct (find_by_id_present k l Hpos Hne) as (q & Hq & _ & Hfind).
  rewrite Hk, Hfind. congruence.
Qed.

Lemma find_by_id_returns_record_witness :
  find_by_id (VScalar (id mike5)) [john; mary; mike5; mike7] =
    Return mike5 [john; mary; mike5; mike7].
Proof.
  apply (find_by_id_returns_record repo_for_tests_calls _ 2%nat mike5);
    reflexivity.
Defined.

Section removal.

Implicit Types (l : list Person) (p q : Person) (v : value) (k : Z) (i j : nat).

(** Once the record at a position is deleted, no record has its id. *)
Lemma delete_absent lo l i p k :
  ascending_from lo l = true → l !! i = Some p → id p = SInt k →
  ∀ q, q ∈ delete i l → id q ≠ SInt k.
Proof.
  intros Hl Hi Hk q [j Hj]%list_elem_of_lookup Hq.
  destruct (decide (j < i)%nat) as [Hlt|Hge].
  - rewrite list_lookup_delete_lt in Hj by done.
    assert (j = i) by (eapply (ascending_lookup_inj lo l); [done..|congruence]).
    lia.
  - rewrite list_lookup_delete_ge in Hj by lia.
    assert (S j = i) by (eapply (ascending_lookup_inj lo l); [done..|congruence]).
    lia.
Qed.

Lemma remove_return_inv v l p l' :
  remove v l = Return p l' →
  ∃ i, v = VInt (Z.of_nat i) ∧ l !! i = Some p ∧ l' = delete i l.
Proof.
  destruct v as [[z| |]|x|vs]; try done.
  destruct (Z_lt_ge_dec z 0); [by rewrite remove_out_of_range by lia|].
  destruct (Z_lt_ge_dec z (Z.of_nat (length l)));
    [|by rewrite remove_out_of_range by lia].
  destruct (remove_in_range l z) as (q & Hq & ->); [lia|].
  intros [= -> <-]. exists (Z.to_nat z). split_and!; [|done..].
  f_equal. f_equal. lia.
Qed.

End removal.

(** X6. In a repository [remove_by_id] of the id of the record at position
    [i] returns that record and deletes exactly that position; afterwards
    [find] of the id returns -1 and [find_by_id] raises the NABException
    "No person with the given ID was found.". *)
Theorem remove_by_id_removes (cs : list call) (l : list Person) (i : nat)
    (p : Person) :
  run cs __init__ = Some l → l !! i = Some p →
  remove_by_id (VScalar (id p)) l = Return p (delete i l) ∧
  find (VScalar (id p)) (delete i l) = Return (-1) (delete i l) ∧
  find_by_id (VScalar (id p)) (delete i l) =
    Raise (NABException "No person with the given ID was found.")
      (delete i l).
Proof.
  intros Hwf%run_init_wf Hi.
  assert (p ∈ l) as Hin by (by eapply list_elem_of_lookup_2).
  destruct (ascending_from_elem 0 l p Hwf Hin) as (k & Hk & Hpos).
  pose proof (find_from_position 0 l i p k Hwf Hi Hk) as Hfind.
  assert (find_from (VInt k) (delete i l) 0 = -1) as Habs.
  { apply find_from_absent_iff. by apply (delete_absent 0 l i p k). }
  rewrite Hk. split_and!.
  - destruct (remove_by_id_present k l Hpos) as (q & Hq & _ & ->); [lia|].
    rewrite Hfind, Nat2Z.id in *. congruence.
  - by rewrite find_valid, Habs.
  - by apply find_by_id_absent.
Qed.

Lemma remove_by_id_removes_witness :
  remove_by_id (VScalar (id mike5)) [john; mary; mike5; mike7] =
    Return mike5 [john; mary; mike7] ∧
  find (VScalar (id mike5)) [john; mary; mike7] =
    Return (-1) [john; mary; mike7] ∧
  find_by_id (VScalar (id mike5)) [john; mary; mike7] =
    Raise (NABException "No person with the given ID was found.")
      [john; mary; mike7].
Proof.
  apply (remove_by_id_removes repo_for_tests_calls
           [john; mary; mike5; mike7] 2%nat mike5); reflexivity.
Defined.

(** X7. [add] undone by [remove_by_id]: in a repository, after an [add(p)]
    that returned, [remove_by_id(p.id)] returns [p] and the list is again
    what it was before the [add]. *)
Theorem add_then_remove_by_id (cs : list call) (l l' : list Person)
    (p : Person) :
  run cs __init__ = Some l → add (VPerson p) l = Return tt l' →
  remove_by_id (VScalar (id p)) l' = Return p l.
Proof.
  intros Hwf%run_init_wf Hadd.
  destruct (add_return_inv _ l l' Hadd) as (p' & k & [= <-] & Hk & Hpos & Habs).
  destruct (add_fresh p k l) as (l'' & Hadd' & Hwf' & Hperm); [done..| |].
  { by apply find_from_absent_iff. }
  assert (l'' = l') as -> by congruence.
  assert (p ∈ l') as [i Hi]%list_elem_of_lookup by (rewrite Hperm; by left).
  pose proof (find_from_position 0 l' i p k Hwf' Hi Hk) as Hfind.
  destruct (remove_by_id_present k l' Hpos) as (q & Hq & _ & Hrem); [lia|].
  rewrite Hfind, Nat2Z.id in *. rewrite Hk, Hrem.
  assert (q = p) as -> by congruence. f_equal.
  apply (ascending_perm_eq 0 0); [by apply ascending_from_delete|done|].
  apply (Permutation_cons_inv (a := p)).
  by rewrite <-(delete_Permutation l' i p), Hperm.
Qed.

Lemma add_then_remove_by_id_witness :
  remove_by_id (VScalar (id (mkPerson (SInt 3) "Sophie" "9" "D")))
    [john; mary; mkPerson (SInt 3) "Sophie" "9" "D"; mike5; mike7] =
  Return (mkPerson (SInt 3) "Sophie" "9" "D") [john; mary; mike5; mike7].
Proof.
  apply (add_then_remove_by_id repo_for_tests_calls
           [john; mary; mike5; mike7]); reflexivity.
Defined.

(** X8. [remove] undone by [add]: in a repository, adding the record that a
    [remove] has just returned succeeds and gives back the list as it was
    before the [remove]. *)
Theorem remove_then_add (cs : list call) (l l' : list Person) (v : value)
    (p : Person) :
  run cs __init__ = Some l → remove v l = Return p l' →
  add (VPerson p) l' = Return tt l.
Proof.
  intros Hwf%run_init_wf Hrem.
  destruct (remove_return_inv v l p l' Hrem) as (i & -> & Hi & ->).
  assert (p ∈ l) as Hin by (by eapply list_elem_of_lookup_2).
  destruct (ascending_from_elem 0 l p Hwf Hin) as (k & Hk & Hpos).
  destruct (add_fresh p k (delete i l)) as (l'' & -> & Hwf'' & Hperm);
    [by apply ascending_from_delete|done..| |].
  { by apply (delete_absent 0 l i p k). }
  f_equal. apply (ascending_perm_eq 0 0); [done..|].
  by rewrite Hperm, <-(delete_Permutation l i p).
Qed.

Lemma remove_then_add_witness :
  add (VPerson mary) [john; mike5; mike7] =
    Return tt [john; mary; mike5; mike7].
Proof.
  apply (remove_then_add repo_for_tests_calls [john; mary; mike5; mike7]
           [john; mike5; mike7] (VInt 1) mary); reflexivity.
Defined.

(** X9. When [add] returns: in a repository [add] returns exactly for a
    Person whose id is a positive integer that no contained record has.  An
    argument that is not a Person raises the NABException "The given person
    is not valid.", and leaves the list as it is. *)
Theorem add_returns_iff (cs : list call) (l : list Person) (v : value) :
  run cs __init__ = Some l →
  ((∃ l', add v l = Return tt l') ↔
   ∃ p k, v = VPerson p ∧ id p = SInt k ∧ 0 < k ∧
          ∀ q, q ∈ l → id q ≠ SInt k) ∧
  ((∀ p, v ≠ VPerson p) →
   add v l = Raise (NABException "The given person is not valid.") l).
Proof.
  intros Hwf%run_init_wf. split; [split|].
  - intros [l' Hadd].
    destruct (add_return_inv v l l' Hadd) as (p & k & -> & Hk & Hpos & Habs).
    exists p, k. split_and!; [done..|]. by apply find_from_absent_iff.
  - intros (p & k & -> & Hk & Hpos & Hfresh).
    destruct (add_fresh p k l) as (l' & Hadd & _); [done..|]. by exists l'.
  - apply add_not_person.
Qed.

Lemma add_returns_iff_witness :
  ((∃ l', add (VList []) [john; mary; mike5; mike7] = Return tt l') ↔
   ∃ p k, VList [] = VPerson p ∧ id p = SInt k ∧ 0 < k ∧
          ∀ q, q ∈ [john; mary; mike5; mike7] → id q ≠ SInt k) ∧
  ((∀ p, VList [] ≠ VPerson p) →
   add (VList []) [john; mary; mike5; mike7] =
     Raise (NABException "The given person is not valid.")
       [john; mary; mike5; mike7]).
Proof.
  apply (add_returns_iff repo_for_tests_calls). reflexivity.
Defined.

Section effects.

Implicit Types (l : list Person) (p q : Person) (v : value) (c : call).

Lemma sort_never_raises l e l' : sort l ≠ Raise e l'.
Proof. unfold sort. by destruct (sort_by_id l). Qed.

Lemma find_raise_inv v l e l' :
  find v l = Raise e l' → l' = l ∧ valid_id v = false.
Proof.
  unfold find. destruct (valid_id v); simpl; [done|]. by intros [= _ <-].
Qed.

Lemma find_return_inv v l (pos : Z) l' : find v l = Return pos l' → l' = l.
Proof.
  unfold find. destruct (valid_id v); simpl; [|done].
  unfold bind, get, ret. by intros [= _ <-].
Qed.

Lemma add_raise_inv v l e l' : add v l = Raise e l' → l' = l.
Proof.
  destruct v as [s|p|vs]; [by intros [= _ <-]| |by intros [= _ <-]].
  unfold add, bind.
  destruct (find (VScalar (id p)) l) as [pos l0|e0 l0|] eqn:Hfind; [| |done].
  - apply find_return_inv in Hfind as ->.
    destruct (negb (pos =? -1)); [by intros [= _ <-]|].
    unfold get, put. intros H. by apply sort_never_raises in H.
  - apply find_raise_inv in Hfind as [-> _]. by intros [= _ <-].
Qed.

Lemma filter_into_new_raise_inv (test : Person → bool) l e l' :
  filter_into_new test l = Raise e l' → l' = l.
Proof.
  unfold filter_into_new.
  destruct (add_matching test l __init__); [done|by intros [= _ <-]|done].
Qed.

Lemma remove_raise_inv v l e l' : remove v l = Raise e l' → l' = l.
Proof.
  unfold remove, bind, get, put, ret, raise, abort.
  destruct v as [[z| |]|x|vs]; try by intros [= _ <-].
  destruct ((z <? 0) || (Z.of_nat (length l) <=? z)); [by intros [= _ <-]|].
  by destruct (pop l z) as [[? ?]|].
Qed.

Lemma fmap_M_raise_inv {A B} (f : A → B) (m : M A) l e l' :
  fmap_M f m l = Raise e l' → m l = Raise e l'.
Proof.
  unfold fmap_M, bind, ret.
  destruct (m l); [done|by intros [= -> ->]|done].
Qed.

End effects.

(** X10. The queries change nothing: on a repository [len], iteration,
    [all], [find], [find_by_id], the three filters and the rendering, with
    any argument, return or raise a NABException and leave the list exactly
    as it was (the sort inside [len] and iteration included). *)
Theorem queries_leave_list (cs : list call) (l : list Person) :
  run cs __init__ = Some l →
  ends_with l (__len__ l) ∧ ends_with l (__iter__ l) ∧ ends_with l (all l) ∧
  (∀ v, ends_with l (find v l) ∧ ends_with l (find_by_id v l) ∧
        ends_with l (find_by_name v l) ∧ ends_with l (find_by_address v l) ∧
        ends_with l (find_by_phone v l)) ∧
  (∀ str, ends_with l (__str__ str l)).
Proof.
  intros Hwf%run_init_wf. split_and!.
  - unfold __len__, bind. by rewrite sort_wf.
  - unfold __iter__, bind. by rewrite sort_wf.
  - done.
  - intros v. split_and!.
    + by destruct (find_cases v l) as [(i & ->)|(e & ->)].
    + by destruct (find_by_id_cases v l) as [(q & ->)|(e & ->)].
    + destruct v as [[z|s|]|p|vs]; try done.
      unfold find_by_name. by rewrite filter_into_new_wf.
    + destruct v as [[z|s|]|p|vs]; try done.
      unfold find_by_address. by rewrite filter_into_new_wf.
    + destruct v as [[z|s|]|p|vs]; try done.
      unfold find_by_phone. by rewrite filter_into_new_wf.
  - intros str. by rewrite __str___concatenation.
Qed.

Lemma queries_leave_list_witness :
  ends_with [john; mary; mike5; mike7] (__len__ [john; mary; mike5; mike7]) ∧
  ends_with [john; mary; mike5; mike7]
    (find_by_name (VStr "M") [john; mary; mike5; mike7]).
Proof.
  destruct (queries_leave_list repo_for_tests_calls
              [john; mary; mike5; mike7]) as (H1 & _ & _ & H2 & _);
    [reflexivity|].
  split; [exact H1|]. by destruct (H2 (VStr "M")) as (_ & _ & H3 & _).
Defined.

(** X11. No partial effect on failure: on any list, well formed or not, a
    call of any public method that raises a NABException leaves the list
    exactly as it was. *)
Theorem raise_leaves_list (c : call) (l l' : list Person) (e : exn) :
  invoke c l = Raise e l' → l' = l.
Proof.
  destruct c as [| | |v|v|v|v|v|v|v|v|str]; cbn [invoke];
    intros H%fmap_M_raise_inv.
  - unfold __len__, bind in H. destruct (sort l) eqn:Hs; try done.
    by apply sort_never_raises in Hs.
  - unfold __iter__, bind in H. destruct (sort l) eqn:Hs; try done.
    by apply sort_never_raises in Hs.
  - done.
  - by apply add_raise_inv in H.
  - by destruct (find_raise_inv v l e l' H).
  - unfold find_by_id, bind in H.
    destruct (negb (valid_id v)); [by injection H|].
    destruct (find v l) as [pos l0|e0 l0|] eqn:Hfind; [| |done].
    + apply find_return_inv in Hfind as ->.
      destruct (negb (pos =? -1)); [|by injection H].
      unfold get, ret, abort in H. by destruct (getitem l pos).
    + apply find_raise_inv in Hfind as [-> _]. by injection H.
  - destruct v as [[z|s|]|p|vs]; try by injection H.
    by apply filter_into_new_raise_inv in H.
  - destruct v as [[z|s|]|p|vs]; try by injection H.
    by apply filter_into_new_raise_inv in H.
  - destruct v as [[z|s|]|p|vs]; try by injection H.
    by apply filter_into_new_raise_inv in H.
  - by apply remove_raise_inv in H.
  - unfold remove_by_id, bind in H.
    destruct (negb (valid_id v)); [by injection H|].
    destruct (find v l) as [pos l0|e0 l0|] eqn:Hfind; [| |done].
    + apply find_return_inv in Hfind as ->.
      destruct (negb (pos =? -1)); [|by injection H].
      by apply remove_raise_inv in H.
    + apply find_raise_inv in Hfind as [-> _]. by injection H.
  - rewrite __str___concatenation in H. done.
Qed.

Lemma raise_leaves_list_witness :
  invoke (c_add (VPerson john)) [mike7; john] =
    Raise (NABException "There's already a person with that ID.")
      [mike7; john] ∧
  [mike7; john] = [mike7; john].
Proof.
  split; [reflexivity|]. symmetry.
  apply (raise_leaves_list (c_add (VPerson john)) [mike7; john] [mike7; john]
           (NABException "There's already a person with that ID.")).
  reflexivity.
Defined.

Section composition.

Implicit Types (l : list Person) (p q : Person) (f g : attribute)
  (s t : string).

Lemma filter_method_wf f s l :
  wf l →
  filter_method f (VStr s) l =
    Return (List.filter (λ p, contains s (field_of f p)) l) l.
Proof.
  intros Hwf. destruct f; simpl;
    unfold find_by_name, find_by_address, find_by_phone;
    by rewrite filter_into_new_wf.
Qed.

Lemma filter_filter_comm (test1 test2 : Person → bool) l :
  List.filter test1 (List.filter test2 l) =
  List.filter test2 (List.filter test1 l).
Proof.
  induction l as [|x l IH]; [done|]. simpl.
  destruct (test1 x) eqn:H1, (test2 x) eqn:H2; simpl;
    rewrite ?H1, ?H2, IH; done.
Qed.

End composition.

(** X12. Filters compose and commute: in a repository, filtering the
    result of one filter by another gives, in either order, the same
    repository, which holds exactly the records that pass both tests. *)
Theorem filters_commute (cs : list call) (l : list Person)
    (f g : attribute) (s t : string) :
  run cs __init__ = Some l →
  ∃ lf lg found,
    filter_method f (VStr s) l = Return lf l ∧
    filter_method g (VStr t) l = Return lg l ∧
    filter_method g (VStr t) lf = Return found lf ∧
    filter_method f (VStr s) lg = Return found lg ∧
    ∀ p, p ∈ found ↔
         p ∈ l ∧ substring s (field_of f p) ∧ substring t (field_of g p).
Proof.
  intros Hwf%run_init_wf.
  eexists _, _, _. split_and!.
  - by apply filter_method_wf.
  - by apply filter_method_wf.
  - rewrite filter_method_wf; [done|]. by apply ascending_from_filter.
  - rewrite filter_method_wf; [|by apply ascending_from_filter].
    by rewrite filter_filter_comm.
  - intros p.
    rewrite !list_elem_of_In, !filter_In, !contains_substring. tauto.
Qed.

Lemma filters_commute_witness :
  ∃ lf lg found,
    filter_method a_name (VStr "M") [john; mary; mike5; mike7] =
      Return lf [john; mary; mike5; mike7] ∧
    filter_method a_address (VStr "B") [john; mary; mike5; mike7] =
      Return lg [john; mary; mike5; mike7] ∧
    filter_method a_address (VStr "B") lf = Return found lf ∧
    filter_method a_name (VStr "M") lg = Return found lg ∧
    ∀ p, p ∈ found ↔
         p ∈ [john; mary; mike5; mike7] ∧
         substring "M" (field_of a_name p) ∧
         substring "B" (field_of a_address p).
Proof.
  apply (filters_commute repo_for_tests_calls). reflexivity.
Defined.

(** X13. Positions after a removal: in a repository, once the record at
    position [i] is removed, [find] of the id of the record that stood at
    another position [j] returns [j] if it stood before [i] and [j - 1] if
    it stood after. *)
Theorem find_after_remove (cs : list call) (l : list Person) (i j : nat)
    (p q : Person) :
  run cs __init__ = Some l → l !! i = Some p → l !! j = Some q → i ≠ j →
  remove (VInt (Z.of_nat i)) l = Return p (delete i l) ∧
  find (VScalar (id q)) (delete i l) =
    Return (if decide (j < i)%nat then Z.of_nat j else Z.of_nat j - 1)
      (delete i l).
Proof.
  intros Hwf%run_init_wf Hi Hj Hne. split.
  - destruct (remove_in_range l (Z.of_nat i)) as (p' & Hp' & ->).
    { apply lookup_lt_Some in Hi. lia. }
    rewrite Nat2Z.id in *. congruence.
  - assert (q ∈ l) as Hin by (by eapply list_elem_of_lookup_2).
    destruct (ascending_from_elem 0 l q Hwf Hin) as (k & Hk & Hpos).
    pose proof (ascending_from_delete 0 l i Hwf) as Hwf'.
    rewrite Hk, find_valid by done. f_equal.
    case_decide as Hlt.
    + apply (find_from_position 0 _ j q k); [done| |done].
      by rewrite list_lookup_delete_lt.
    + destruct j as [|j]; [lia|].
      rewrite (find_from_position 0 _ j q k); [lia|done| |done].
      rewrite list_lookup_delete_ge by lia. done.
Qed.

Lemma find_after_remove_witness :
  remove (VInt (Z.of_nat 1)) [john; mary; mike5; mike7] =
    Return mary [john; mike5; mike7] ∧
  find (VScalar (id mike7)) [john; mike5; mike7] =
    Return 2 [john; mike5; mike7].
Proof.
  apply (find_after_remove repo_for_tests_calls [john; mary; mike5; mike7]
           1%nat 3%nat mary mike7); [reflexivity..|lia].
Defined.

Section resorting.

Implicit Types (l : list Person) (p q x : Person).

Lemma insert_by_id_sorted x l :
  integer_ids (x :: l) → StronglySorted id_le l →
  ∃ l', insert_by_id x l = Some l' ∧ l' ≡ₚ x :: l ∧ StronglySorted id_le l'.
Proof.
  induction l as [|y l IH]; intros Hint Hsorted.
  - exists [x]. split_and!; [done..|]. by repeat constructor.
  - destruct (Hint x) as [a Ha]; [by left|].
    destruct (Hint y) as [b Hb]; [right; by left|].
    apply StronglySorted_inv in Hsorted as [Hsorted Hy].
    simpl. rewrite Ha, Hb. simpl.
    destruct (Z.ltb_spec b a) as [Hlt|Hge].
    + destruct IH as (l' & -> & Hperm & Hl'); [|done|].
      { intros q [->|Hq]%elem_of_cons; apply Hint; [by left|by do 2 right]. }
      exists (y :: l'). split_and!; [done| |].
      * rewrite Hperm. apply perm_swap.
      * constructor; [done|]. rewrite Hperm. constructor; [|done].
        exists b, a. split_and!; [done..|lia].
    + exists (x :: y :: l). split_and!; [done..|].
      constructor; [by constructor|]. constructor.
      * exists a, b. split_and!; [done..|lia].
      * eapply Forall_impl; [exact Hy|].
        intros q (b' & c & ? & ? & ?). exists a, c.
        split_and!; [done..|]. assert (b' = b) by congruence. lia.
Qed.

Lemma sort_by_id_sorted l :
  integer_ids l →
  ∃ l', sort_by_id l = Some l' ∧ l' ≡ₚ l ∧ StronglySorted id_le l'.
Proof.
  induction l as [|x l IH]; intros Hint.
  - exists []. split_and!; [done..|]. constructor.
  - destruct IH as (l1 & Hsort & Hperm & Hl1).
    { intros q Hq. apply Hint. by right. }
    destruct (insert_by_id_sorted x l1) as (l2 & Hins & Hperm2 & Hl2);
      [|done|].
    { intros q Hq. apply Hint. by rewrite <-Hperm. }
    exists l2. split_and!; [|by rewrite Hperm2, Hperm|done].
    simpl. by rewrite Hsort.
Qed.

Lemma StronglySorted_ascending l : StronglySorted id_le l → ascending l.
Proof.
  induction 1 as [|x l Hl IH Hx]; intros i j p q Hij Hi Hj.
  - by rewrite lookup_nil in Hi.
  - destruct j as [|j]; [lia|]. simpl in Hj.
    destruct i as [|i]; simpl in Hi.
    + injection Hi as <-. rewrite Forall_forall in Hx. apply Hx.
      by eapply list_elem_of_lookup_2.
    + apply (IH i j); [lia|done..].
Qed.

End resorting.

(** X14. [len] and iteration put a list back in order: on any list whose
    ids are integers, in whatever order and with whatever duplicates (the
    list that [all] hands out can be changed by its holder), [len] returns
    the number of records and iteration yields them, and either call
    leaves the same records with ids that never decrease. *)
Theorem len_iter_restore_order (l : list Person) :
  integer_ids l →
  ∃ l', __len__ l = Return (Z.of_nat (length l)) l' ∧
        __iter__ l = Return l' l' ∧
        l' ≡ₚ l ∧ ascending l'.
Proof.
  intros Hint.
  destruct (sort_by_id_sorted l Hint) as (l' & Hsort & Hperm & Hl').
  exists l'. split_and!; [| |done|by apply StronglySorted_ascending].
  - unfold __len__, bind, sort. rewrite Hsort. unfold get, ret.
    by rewrite (Permutation_length Hperm).
  - unfold __iter__, bind, sort. by rewrite Hsort.
Qed.

Lemma len_iter_restore_order_witness :
  ∃ l', __len__ [mike7; john; mary; john] =
          Return (Z.of_nat (length [mike7; john; mary; john])) l' ∧
        __iter__ [mike7; john; mary; john] = Return l' l' ∧
        l' ≡ₚ [mike7; john; mary; john] ∧ ascending l'.
Proof.
  apply (len_iter_restore_order [mike7; john; mary; john]).
  intros p Hp. set_unfold in Hp.
  destruct Hp as [->|[->|[->|[->|[]]]]]; by eexists.
Defined.

Section marker.

Variable str : Person → string.

Local Arguments String.append !_ _ / : simpl nomatch.

Lemma concatenation_empty (l : list Person) :
  concatenation (str <$> l) = "" ↔ ∀ p, p ∈ l → str p = "".
Proof.
  induction l as [|x l IH]; simpl.
  - split; [|done]. intros _ p Hp. by apply elem_of_nil in Hp.
  - split.
    + intros Hempty. pose proof (append_empty _ _ Hempty) as Hx.
      rewrite Hx in Hempty. simpl in Hempty.
      intros p [->|Hp]%elem_of_cons; [done|]. by apply IH.
    + intros Hall. rewrite (Hall x) by (by left). simpl.
      apply IH. intros p Hp. apply Hall. by right.
Qed.

(** X15. The rendering on any list and for any string form of a Person:
    it never changes the list; it is the marker "None" and a newline
    exactly when every record renders as the empty string (so also for the
    empty list), and the concatenation of the string forms as soon as one
    record renders as a non-empty string. *)
Theorem str_marker_or_concatenation (l : list Person) :
  ((∀ p, p ∈ l → str p = "") →
   __str__ str l = Return ("None" +:+ newline) l) ∧
  (∀ p, p ∈ l → str p ≠ "" →
   __str__ str l = Return (concatenation (str <$> l)) l).
Proof.
  rewrite __str___concatenation. split.
  - intros Hall%concatenation_empty. by rewrite Hall.
  - intros p Hp Hne.
    destruct (String.eqb_spec (concatenation (str <$> l)) "") as [Hempty|_];
      [|done].
    rewrite concatenation_empty in Hempty. by destruct Hne; apply Hempty.
Qed.

End marker.

Lemma str_marker_or_concatenation_witness :
  __str__ (λ _, "") [john; mary] = Return ("None" +:+ newline) [john; mary] ∧
  __str__ name [john; mkPerson (SInt 2) "" "1" "B"] =
    Return "John" [john; mkPerson (SInt 2) "" "1" "B"].
Proof.
  split.
  - by apply (str_marker_or_concatenation (λ _, "") [john; mary]).
  - apply (str_marker_or_concatenation name
             [john; mkPerson (SInt 2) "" "1" "B"] ) with john;
      [by left|discriminate].
Defined.

(** X16. [add] sorts the whole list: on any list whose ids are integers,
    in whatever order, adding a Person with a positive integer id that no
    record has returns, and the list then holds the new record and the old
    ones with ids that never decrease. *)
Theorem add_sorts_whole_list (l : list Person) (p : Person) (k : Z) :
  integer_ids l → id p = SInt k → 0 < k → (∀ q, q ∈ l → id q ≠ SInt k) →
  ∃ l', add (VPerson p) l = Return tt l' ∧ l' ≡ₚ p :: l ∧ ascending l'.
Proof.
  intros Hint Hk Hpos Hfresh.
  destruct (sort_by_id_sorted (l ++ [p])) as (l' & Hsort & Hperm & Hl').
  { intros q [Hq|Hq]%elem_of_app; [by apply Hint|].
    apply list_elem_of_singleton in Hq as ->. by exists k. }
  exists l'. split_and!.
  - unfold add, bind. rewrite Hk, (find_valid k l Hpos).
    rewrite (proj2 (find_from_absent_iff k l) Hfresh). simpl.
    unfold get, put, sort. by rewrite Hsort.
  - rewrite Hperm. by rewrite Permutation_app_comm.
  - by apply StronglySorted_ascending.
Qed.

Lemma add_sorts_whole_list_witness :
  ∃ l', add (VPerson mary) [mike7; john; mike5] = Return tt l' ∧
        l' ≡ₚ mary :: [mike7; john; mike5] ∧ ascending l'.
Proof.
  apply (add_sorts_whole_list [mike7; john; mike5] mary 2);
    [|reflexivity|lia|].
  - intros p Hp. set_unfold in Hp.
    destruct Hp as [->|[->|[->|[]]]]; by eexists.
  - intros q Hq. set_unfold in Hq.
    destruct Hq as [->|[->|[->|[]]]]; discriminate.
Defined.
